(** * Digital signage web player: playlist and synchronization engine

    A shallow embedding of [src/web_player.py].  Python values are modelled
    as follows.

    - Numbers (seconds, durations, time stamps) are exact rationals [Q];
      the floating point readings of [time.time()] are idealised.
    - File names are [string]s, the bytes of the name, compared
      character by character, which is how [sorted] orders [Path] objects
      that share a parent directory.  Paths are POSIX paths: [glob] and
      dictionary lookup tell upper case from lower case, and a path
      component is at most [NAME_MAX] bytes long.
    - The parts of the disk the program reads are collected in the record
      [disk]; files holding JSON are given by the outcome of reading and
      parsing them.
    - A Python exception that the program does not catch is a [Raise]
      result.  The exceptions that the input files can cause are
      modelled: a selected name that is not a string, and one whose stem
      is too long for a path component.
    - The disks covered are those on which the video directory and the
      slide cache are missing or are directories that can be listed and
      searched.  On a disk with a plain file or an unreadable directory
      in the place of the slide cache, [SLIDES_CACHE_DIR.iterdir()]
      raises in [get_slide_files]; such disks are not values of [disk],
      and no statement below is about them. *)

From Stdlib Require Import Ascii QArith Qround Lqa.
From stdpp Require Import base option list sorting strings gmap.

(** ** Strings and paths *)

Definition chars (s : string) : list ascii := String.list_ascii_of_string s.
Definition text (l : list ascii) : string := String.string_of_list_ascii l.

(** [str.upper()] on the characters the program applies it to (the ASCII
    letters of [VIDEO_FORMATS]). *)
Definition upper_ascii (c : ascii) : ascii :=
  let n := nat_of_ascii c in
  if (97 <=? n)%nat && (n <=? 122)%nat then ascii_of_nat (n - 32) else c.

Definition upper (s : string) : string := text (upper_ascii <$> chars s).

(** Shell-style matching of one path component, for patterns made of
    literal characters and the wildcard [*] (the only patterns the
    program uses: ["*.mp4"], ["slide_*.png"], ...). *)
Fixpoint fnmatch_chars (pat : list ascii) : list ascii → bool :=
  match pat with
  | [] => λ nm, match nm with [] => true | _ => false end
  | c :: pat' =>
      if Ascii.eqb c "*"%char
      then fix star (nm : list ascii) : bool :=
             fnmatch_chars pat' nm
             || match nm with [] => false | _ :: nm' => star nm' end
      else λ nm, match nm with
                 | [] => false
                 | d :: nm' => Ascii.eqb c d && fnmatch_chars pat' nm'
                 end
  end.

Definition fnmatch (pat nm : string) : bool := fnmatch_chars (chars pat) (chars nm).

(** [directory.glob(pat)] over the entry names of one directory. *)
Definition glob (pat : string) (names : list string) : list string :=
  filter (λ nm, fnmatch pat nm = true) names.

(** [sorted(paths)] for paths of one directory: ascending by name. *)
Definition sorted (names : list string) : list string := merge_sort String.le names.

(** [Path(p).name]: the last component of [p] that is neither empty nor
    ["."], or the empty string when there is none. *)
Fixpoint split_on (sep : ascii) (l : list ascii) : list (list ascii) :=
  match l with
  | [] => [[]]
  | c :: l' =>
      if Ascii.eqb c sep then [] :: split_on sep l'
      else match split_on sep l' with
           | [] => [[c]]
           | w :: ws => (c :: w) :: ws
           end
  end.

Definition path_name (p : string) : list ascii :=
  let parts := filter (λ w, w ≠ [] ∧ w ≠ chars ".") (split_on "/"%char (chars p)) in
  List.last parts [].

(** [s.rfind(c)], with [None] for Python's [-1]. *)
Fixpoint rfind (c : ascii) (l : list ascii) : option nat :=
  match l with
  | [] => None
  | x :: l' =>
      match rfind c l' with
      | Some i => Some (S i)
      | None => if Ascii.eqb x c then Some 0%nat else None
      end
  end.

(** [Path(p).stem]. *)
Definition path_stem (p : string) : string :=
  let nm := path_name p in
  match rfind "."%char nm with
  | Some i => if (0 <? i)%nat && (i <? length nm - 1)%nat then text (take i nm) else text nm
  | None => text nm
  end.

(** ** Python values read from JSON files *)

Local Set Warnings "-register-all,-clear-no-such-hyp".

(** The values [json.loads] produces.  [JFloat None] stands for the
    non-finite floats ([NaN], [Infinity], [-Infinity]); the members of an
    object are kept in file order. *)
Inductive json : Type :=
| JNull
| JBool (b : bool)
| JInt (z : Z)
| JFloat (f : option Q)
| JStr (s : string)
| JArr (items : list json)
| JObj (members : list (string * json)).

(** The outcome of [f.exists()] followed by [json.loads(f.read_text())]. *)
Inductive json_file : Type :=
| Missing
| Unreadable
| Loaded (data : json).

(** Truth value of a Python object in a condition. *)
Definition truthy (v : json) : bool :=
  match v with
  | JNull => false
  | JBool b => b
  | JInt z => negb (z =? 0)%Z
  | JFloat (Some q) => negb (Qeq_bool q 0)
  | JFloat None => true
  | JStr s => negb (String.eqb s "")
  | JArr items => negb (bool_decide (length items = 0%nat))
  | JObj members => negb (bool_decide (length members = 0%nat))
  end.

(** [a or b]. *)
Definition py_or (a b : json) : json := if truthy a then a else b.

(** [d.get(key, default)]; a key that occurs twice in the file keeps its
    last value, as in the dictionary [json.loads] builds. *)
Definition dict_get (members : list (string * json)) (key : string) (default : json) : json :=
  match list_find (λ kv, kv.1 = key) (reverse members) with
  | Some (_, (_, v)) => v
  | None => default
  end.

(** Exceptions that leave a function of the program. *)
Inductive exn : Type := TypeError | ZeroDivisionError | OSError.

Inductive result (A : Type) : Type :=
| Ok (a : A)
| Raise (e : exn).
Arguments Ok {A} a.
Arguments Raise {A} e.

Definition bind {A B : Type} (r : result A) (k : A → result B) : result B :=
  match r with
  | Ok a => k a
  | Raise e => Raise e
  end.

(** ** The disk *)

(** An entry of the slide cache: a plain file, or a directory given by the
    names of its entries (in the order the operating system lists them). *)
Inductive dirent : Type :=
| File
| Dir (children : list string).

(** What the program reads.  [VIDEOS_DIR] and [SLIDES_CACHE_DIR] are [None]
    when the path is missing and are directories otherwise, given by
    their entries (for [VIDEOS_DIR] a path that is not a directory behaves
    as [Some []]: every [glob] is empty).  [SLIDES_CACHE_PARENT] lists the
    entry names of [SLIDES_CACHE_DIR / ".."], which is where a selection
    name with stem [".."] leads. *)
Record disk : Type := {
  CONFIG_FILE : json_file;
  PLAYLIST_JSON : json_file;
  VIDEOS_DIR : option (list string);
  SLIDES_CACHE_DIR : option (list (string * dirent));
  SLIDES_CACHE_PARENT : list string
}.

Definition VIDEO_FORMATS : list string := [".mp4"; ".avi"; ".mov"; ".mkv"; ".webm"].
Definition SLIDE_DURATION : Q := 10.

(** ** Content enumeration *)

(** The result is the list of file names; each stands for the [Path] of
    that name under [VIDEOS_DIR]. *)
Definition get_video_files (d : disk) : list string :=
  let files :=
    match VIDEOS_DIR d with
    | Some names =>
        foldl (λ files ext,
                 (files ++ glob ("*" +:+ ext) names) ++ glob ("*" +:+ upper ext) names)
              [] VIDEO_FORMATS
    | None => []
    end in
  sorted files.

(** [sorted(SLIDES_CACHE_DIR.iterdir())]. *)
Definition sorted_entries (ents : list (string * dirent)) : list (string * dirent) :=
  merge_sort (λ a b, String.le a.1 b.1) ents.

(** A slide is the pair of the directory it was found in (relative to
    [SLIDES_CACHE_DIR]) and its file name. *)
Definition get_slide_files (d : disk) : list (string * string) :=
  match SLIDES_CACHE_DIR d with
  | Some ents =>
      foldl (λ slides ent,
               match ent.2 with
               | Dir children =>
                   slides ++ ((λ s, (ent.1, s)) <$> sorted (glob "slide_*.png" children))
               | File => slides
               end)
            [] (sorted_entries ents)
  | None => []
  end.

(** ** Playlist entries *)

Inductive entry_type : Type := video | image.

(** A playlist item: the dictionary with keys ['type'], ['url'], ['name']
    and, when present, ['duration']. *)
Record entry : Type := {
  type : entry_type;
  url : string;
  name : string;
  duration : option Q
}.

(** [slide.relative_to(SLIDES_CACHE_DIR).as_posix()]. *)
Definition relative_posix (dir s : string) : string :=
  if String.eqb dir "" then s else dir +:+ "/" +:+ s.

Definition video_item (nm : string) (dur : option Q) : entry :=
  {| type := video; url := "/content/videos/" +:+ nm; name := nm; duration := dur |}.

Definition image_item (slide : string * string) : entry :=
  {| type := image;
     url := "/content/slides/" +:+ relative_posix slide.1 slide.2;
     name := slide.2;
     duration := Some SLIDE_DURATION |}.

(** ** Configuration *)

(** [mode in options], for a tuple of strings. *)
Definition mode_in (mode : json) (options : list string) : bool :=
  match mode with
  | JStr s => bool_decide (s ∈ options)
  | _ => false
  end.

(** The [try] block that reads the mode: any exception, among them the
    [AttributeError] of [cfg.get] on a value that is not an object, leaves
    ['both']. *)
Definition read_mode (cfg : json_file) : json :=
  match cfg with
  | Loaded (JObj members) => dict_get members "mode" (JStr "both")
  | _ => JStr "both"
  end.

(** ** The program *)

Section WebPlayer.

Local Set Default Proof Using "Type".

(** Library functions the program calls and this development does not
    look into: [int] applied to a string ([None] when it raises
    [ValueError]), [json.dumps(_, sort_keys=True)] on a playlist, and the
    hexadecimal MD5 digest of a string. *)
Variable int_of_str : string → option Z.
Variable json_dumps : list entry → string.
Variable md5_hexdigest : string → string.

(** [int(v)]; [None] when it raises. *)
Definition py_int (v : json) : option Z :=
  match v with
  | JBool b => Some (if b then 1 else 0)%Z
  | JInt z => Some z
  | JFloat (Some q) => Some (Z.quot (Qnum q) (Z.pos (Qden q)))
  | JFloat None => None
  | JStr s => int_of_str s
  | JNull | JArr _ | JObj _ => None
  end.

(** An element of [selected]: [{'name': ..., 'repeats': ...}]. *)
Record selection : Type := {
  sel_name : json;
  sel_repeats : Z
}.

(** The body of the loop that normalises [playlist.json]: what one element
    of the file appends to [selected]. *)
Definition normalize (item : json) : list selection :=
  match item with
  | JStr s => [ {| sel_name := JStr s; sel_repeats := 1 |} ]
  | JObj members =>
      let nm := py_or (dict_get members "name" JNull) (dict_get members "filename" JNull) in
      let repeats :=
        match py_int (dict_get members "repeats" (JInt 1)) with
        | Some r => r
        | None => 1%Z
        end in
      if truthy nm then [ {| sel_name := nm; sel_repeats := Z.max 1 repeats |} ] else []
  | _ => []
  end.

Definition read_selected (f : json_file) : list selection :=
  match f with
  | Loaded (JArr data) => foldl (λ selected item, selected ++ normalize item) [] data
  | _ => []
  end.

(** [{v.name: v for v in get_video_files()}]; a [Path] under [VIDEOS_DIR]
    is identified with its name. *)
Definition video_map (d : disk) : gmap string string :=
  foldl (λ m v, <[v := v]> m) ∅ (get_video_files d).

(** The longest path component the file system accepts, in bytes (255 on
    the file systems of Linux). *)
Definition NAME_MAX : nat := 255.

(** [s] holds the character of code 0. *)
Definition has_nul (s : string) : bool := bool_decide (Ascii.zero ∈ chars s).

(** [pres_dir = SLIDES_CACHE_DIR / stem] under the test
    [pres_dir.exists() and pres_dir.is_dir()]: [Some] of the directory,
    as a path relative to [SLIDES_CACHE_DIR], with its entry names when
    the test is true, [None] when it is false.  The stem is a single path
    component.  An entry of the cache of that name decides the test (no
    directory has an entry named [""], ["."] or [".."], or one longer
    than [NAME_MAX]); otherwise the stems [""] and ["."] lead to the
    cache itself and [".."] to its parent, [exists()] is false for a
    stem that holds the character of code 0 ([ValueError], which it
    swallows), and for a stem longer than [NAME_MAX] it raises the
    [OSError] of [stat] (name too long), which it does not swallow. *)
Definition pres_dir (d : disk) (stem : string) : result (option (string * list string)) :=
  match SLIDES_CACHE_DIR d with
  | None => Ok None
  | Some ents =>
      match list_find (λ ent, ent.1 = stem) ents with
      | Some (_, (_, Dir children)) => Ok (Some (stem, children))
      | Some (_, (_, File)) => Ok None
      | None =>
          if String.eqb stem "" || String.eqb stem "." then Ok (Some ("", ents.*1))
          else if String.eqb stem ".." then Ok (Some ("..", SLIDES_CACHE_PARENT d))
          else if has_nul stem then Ok None
          else if (NAME_MAX <? String.length stem)%nat then Raise OSError
          else Ok None
      end
  end.

(** [for _ in range(n): playlist.append/extend(items)], as the list of
    appended items. *)
Definition repeated {A : Type} (n : Z) (items : list A) : list A :=
  concat (replicate (Z.to_nat n) items).

(** The [else] branch of the loop body: the name is taken as a
    presentation file name and expanded to the slides cached under its
    stem.  The test of [pres_dir] comes before the test of the mode. *)
Definition expand_presentation (mode : json) (d : disk) (nm : string) (repeats : Z)
    : result (list entry) :=
  bind (pres_dir d (path_stem nm)) (λ found,
    match found with
    | Some (dir, children) =>
        if mode_in mode ["both"; "presentation"]
        then Ok (repeated repeats
                   (image_item <$> ((λ s, (dir, s)) <$> sorted (glob "slide_*.png" children))))
        else Ok []
    | None => Ok []
    end).

(** One iteration of the loop over [selected]: the items it appends.  A
    name that is not a string fails in [name in video_files] (unhashable)
    or in [Path(name)]. *)
Definition resolve (mode : json) (d : disk) (video_files : gmap string string)
    (sel : selection) : result (list entry) :=
  if negb (truthy (sel_name sel)) then Ok []
  else
    match sel_name sel with
    | JStr nm =>
        match video_files !! nm with
        | Some v =>
            if mode_in mode ["both"; "video"]
            then Ok (repeated (sel_repeats sel) [video_item v None])
            else expand_presentation mode d nm (sel_repeats sel)
        | None => expand_presentation mode d nm (sel_repeats sel)
        end
    | _ => Raise TypeError
    end.

(** The loop over [selected], started with the playlist built so far. *)
Fixpoint resolve_all (mode : json) (d : disk) (video_files : gmap string string)
    (selected : list selection) (playlist : list entry) : result (list entry) :=
  match selected with
  | [] => Ok playlist
  | sel :: rest =>
      bind (resolve mode d video_files sel)
           (λ items, resolve_all mode d video_files rest (playlist ++ items))
  end.

(** The two loops of the default ordering; [video_duration] is the
    ['duration'] of a video item ([None] when the key is absent). *)
Definition enumerate (mode : json) (d : disk) (video_duration : option Q) : list entry :=
  let playlist :=
    foldl (λ playlist v,
             if mode_in mode ["both"; "video"]
             then playlist ++ [video_item v video_duration] else playlist)
          [] (get_video_files d) in
  foldl (λ playlist slide,
           if mode_in mode ["both"; "presentation"]
           then playlist ++ [image_item slide] else playlist)
        playlist (get_slide_files d).

Definition get_playlist (d : disk) : result (list entry) :=
  let mode := read_mode (CONFIG_FILE d) in
  let selected := read_selected (PLAYLIST_JSON d) in
  let video_files := video_map d in
  match selected with
  | _ :: _ => resolve_all mode d video_files selected []
  | [] => Ok (enumerate mode d None)
  end.



Definition get_video_duration (video_path : string) : Q := 30.

Definition build_playlist_with_durations (d : disk) : list entry :=
  let mode := read_mode (CONFIG_FILE d) in
  let playlist :=
    foldl (λ playlist v,
             if mode_in mode ["both"; "video"]
             then playlist ++ [video_item v (Some (get_video_duration v))] else playlist)
          [] (get_video_files d) in
  foldl (λ playlist slide,
           if mode_in mode ["both"; "presentation"]
           then playlist ++ [image_item slide] else playlist)
        playlist (get_slide_files d).

Definition get_playlist_hash_from (playlist : list entry) : string :=
  md5_hexdigest (json_dumps playlist).

(** ** Synchronization *)

(** [item.get('duration', 0)]. *)
Definition duration_of (item : entry) : Q := default 0%Q (duration item).

(** [sum(...)] adds from the left, starting at [0]. *)
Definition calculate_total_duration (playlist : list entry) : Q :=
  foldl (λ acc item, (acc + duration_of item)%Q) 0%Q playlist.

(** [x % y] on numbers: the remainder has the sign of [y]. *)
Definition py_mod (x y : Q) : result Q :=
  if Qeq_bool y 0 then Raise ZeroDivisionError
  else Ok (x - y * inject_Z (Qfloor (x / y)))%Q.

Definition Qgtb (x y : Q) : bool := negb (Qle_bool x y).

(** The loop of [get_current_item_index], from index [idx] on; [None]
    when it ends without returning. *)
Fixpoint walk (position_in_loop cumulative : Q) (idx : nat) (items : list entry)
    : option (nat * Q) :=
  match items with
  | [] => None
  | item :: rest =>
      if Qgtb (cumulative + duration_of item)%Q position_in_loop
      then Some (idx, (position_in_loop - cumulative)%Q)
      else walk position_in_loop (cumulative + duration_of item)%Q (S idx) rest
  end.

Definition get_current_item_index (playlist : list entry) (elapsed_time : Q) : result (nat * Q) :=
  let total_duration := calculate_total_duration playlist in
  if Qeq_bool total_duration 0 then Ok (0%nat, 0%Q)
  else
    bind (py_mod elapsed_time total_duration) (λ position_in_loop,
      match walk position_in_loop 0%Q 0%nat playlist with
      | Some r => Ok r
      | None => Ok (0%nat, 0%Q)
      end).

(** The three module-level variables of the synchronized endpoint. *)
Record anchor : Type := {
  _playlist_cache : option (list entry);
  _playlist_hash_cache : option string;
  _playlist_start_time : option Q
}.

(** The state of the server process: the anchor, and how many times
    [time.time()] has been called.  A clock gives the reading of each
    call. *)
Record process : Type := {
  sync : anchor;
  clock_reads : nat
}.

Definition initial : process :=
  {| sync := {| _playlist_cache := None; _playlist_hash_cache := None;
                _playlist_start_time := None |};
     clock_reads := 0%nat |}.

(** The body of the JSON answer of [/api/playlist-sync]. *)
Record sync_response : Type := {
  r_playlist : list entry;
  r_hash : string;
  serverTime : Q;
  playlistStartTime : Q;
  currentIndex : nat;
  itemElapsed : Q
}.

(** Truth value of [_playlist_start_time]: [None] and [0] are false. *)
Definition started (a : anchor) : option Q :=
  match _playlist_start_time a with
  | Some t => if Qeq_bool t 0 then None else Some t
  | None => None
  end.

Definition api_playlist_sync (time : nat → Q) (d : disk) (p : process)
    : result sync_response * process :=
  let playlist := build_playlist_with_durations d in
  let playlist_hash := get_playlist_hash_from playlist in
  (* if playlist_hash != _playlist_hash_cache: reset the anchor *)
  let p1 :=
    if bool_decide (_playlist_hash_cache (sync p) = Some playlist_hash) then p
    else {| sync := {| _playlist_cache := Some playlist;
                       _playlist_hash_cache := Some playlist_hash;
                       _playlist_start_time := Some (time (clock_reads p)) |};
            clock_reads := S (clock_reads p) |} in
  (* if _playlist_start_time and playlist: locate the current item *)
  let '(located, p2) :=
    match started (sync p1), playlist with
    | Some start, _ :: _ =>
        (get_current_item_index playlist (time (clock_reads p1) - start)%Q,
         {| sync := sync p1; clock_reads := S (clock_reads p1) |})
    | _, _ => (Ok (0%nat, 0%Q), p1)
    end in
  match located with
  | Raise e => (Raise e, p2)
  | Ok (current_index, item_elapsed) =>
      let server_time := time (clock_reads p2) in
      let p3 := {| sync := sync p2; clock_reads := S (clock_reads p2) |} in
      let '(start_time, p4) :=
        match started (sync p3) with
        | Some start => (start, p3)
        | None => (time (clock_reads p3), {| sync := sync p3; clock_reads := S (clock_reads p3) |})
        end in
      (Ok {| r_playlist := playlist; r_hash := playlist_hash;
             serverTime := server_time; playlistStartTime := start_time;
             currentIndex := current_index; itemElapsed := item_elapsed |},
       p4)
  end.

(** The process state after serving a sequence of synchronized requests,
    each against the disk as it is at that moment. *)
Definition serve (time : nat → Q) (disks : list disk) (p : process) : process :=
  foldl (λ p d, (api_playlist_sync time d p).2) p disks.

(** ** Vocabulary of the properties *)

(** The value of [cumulative] after the loop has passed [items]. *)
Definition accumulate (cumulative : Q) (items : list entry) : Q :=
  foldl (λ acc item, (acc + duration_of item)%Q) cumulative items.

(** The cumulative duration before the entry at index [idx]. *)
Definition cumulative_before (playlist : list entry) (idx : nat) : Q :=
  accumulate 0 (take idx playlist).

(** A located position: the index, and the offset up to equality of
    rationals. *)
Definition located_at (r : result (nat * Q)) (idx : nat) (item_elapsed : Q) : Prop :=
  match r with
  | Ok (i, e) => i = idx ∧ (e == item_elapsed)%Q
  | Raise _ => False
  end.

Definition positive_duration (item : entry) : Prop :=
  ∃ q, duration item = Some q ∧ (0 < q)%Q.

(** A content store without entries: each directory is missing or empty. *)
Definition empty_store (d : disk) : Prop :=
  (VIDEOS_DIR d = None ∨ VIDEOS_DIR d = Some [])
  ∧ (SLIDES_CACHE_DIR d = None ∨ SLIDES_CACHE_DIR d = Some []).

(** An entry the mode lets through. *)
Definition allowed (mode : json) (e : entry) : Prop :=
  match type e with
  | video => mode_in mode ["both"; "video"] = true
  | image => mode_in mode ["both"; "presentation"] = true
  end.

(** The logical content of an entry: everything but the duration. *)
Definition content (e : entry) : entry_type * string * string := (type e, url e, name e).

(** Two videos on disk, of which [playlist.json] selects the first. *)
Definition one_of_two_selected : disk :=
  {| CONFIG_FILE := Missing;
     PLAYLIST_JSON := Loaded (JArr [JStr "a.mp4"]);
     VIDEOS_DIR := Some ["a.mp4"; "b.mp4"];
     SLIDES_CACHE_DIR := None;
     SLIDES_CACHE_PARENT := [] |}.

(** One video on disk, no selection, and the given configuration file. *)
Definition one_video (cfg : json_file) : disk :=
  {| CONFIG_FILE := cfg;
     PLAYLIST_JSON := Missing;
     VIDEOS_DIR := Some ["a.mp4"];
     SLIDES_CACHE_DIR := None;
     SLIDES_CACHE_PARENT := [] |}.

(** A video directory whose only file has a mixed-case extension. *)
Definition mixed_case_video : disk :=
  {| CONFIG_FILE := Missing;
     PLAYLIST_JSON := Missing;
     VIDEOS_DIR := Some ["clip.Mp4"];
     SLIDES_CACHE_DIR := None;
     SLIDES_CACHE_PARENT := [] |}.

(** A consistent anchor: nothing is stored yet, or the stored fingerprint
    is that of the stored playlist and the start time is a reading the
    clock has given before. *)
Definition anchored (time : nat → Q) (p : process) : Prop :=
  match _playlist_cache (sync p), _playlist_hash_cache (sync p),
        _playlist_start_time (sync p) with
  | None, None, None => True
  | Some playlist, Some fingerprint, Some start =>
      fingerprint = get_playlist_hash_from playlist
      ∧ ∃ k, (k < clock_reads p)%nat ∧ start = time k
  | _, _, _ => False
  end.

(** The slides one entry of the slide cache contributes to
    [get_slide_files]. *)
Definition slides_of (ent : string * dirent) : list (string * string) :=
  match ent.2 with
  | Dir children => (λ s, (ent.1, s)) <$> sorted (glob "slide_*.png" children)
  | File => []
  end.


(** The sum of the durations of the entries of a playlist; an entry
    without ['duration'] counts 0. *)
Fixpoint sum_durations (playlist : list entry) : Q :=
  match playlist with
  | [] => 0
  | item :: rest =>
      (match duration item with Some q => q | None => 0 end + sum_durations rest)%Q
  end.


(** ** Example inputs *)

(** A configuration file that sets the mode, and a [playlist.json] that
    selects one name with a repeat count. *)
Definition mode_file (mode : string) : json_file := Loaded (JObj [("mode", JStr mode)]).

Definition select (nm : string) (repeats : Z) : json_file :=
  Loaded (JArr [JObj [("name", JStr nm); ("repeats", JInt repeats)]]).

(** A disk with three videos and one cached presentation of two slides. *)
Definition lobby (cfg selection_file : json_file) : disk :=
  {| CONFIG_FILE := cfg;
     PLAYLIST_JSON := selection_file;
     VIDEOS_DIR := Some ["b.mp4"; "a.mp4"; "intro.MOV"; "notes.txt"];
     SLIDES_CACHE_DIR :=
       Some [("deck", Dir ["slide_2.png"; "slide_1.png"; "thumbs.db"]); ("readme.txt", File)];
     SLIDES_CACHE_PARENT := ["slides"] |}.

(** A disk without any of the files and directories. *)
Definition blank : disk :=
  {| CONFIG_FILE := Missing;
     PLAYLIST_JSON := Missing;
     VIDEOS_DIR := None;
     SLIDES_CACHE_DIR := None;
     SLIDES_CACHE_PARENT := [] |}.


(** Stand-ins for the library functions, to run the examples: an [int]
    that accepts no string, a serialisation that lists urls and
    durations, a digest that is the identity, and a clock that starts at
    1000 and advances by one at each reading. *)
Definition no_int (s : string) : option Z := None.

Definition show_duration (q : option Q) : string :=
  match q with
  | Some 30%Q => "30"
  | Some 10%Q => "10"
  | Some _ => "?"
  | None => "-"
  end.

Definition list_urls (playlist : list entry) : string :=
  foldr (λ e acc, url e +:+ "=" +:+ show_duration (duration e) +:+ ";" +:+ acc) "" playlist.

Definition plain_digest (s : string) : string := s.

Definition ticking (n : nat) : Q := inject_Z (1000 + Z.of_nat n).

(** ** Arithmetic of the looping position *)

Lemma Qeq_bool_false (x y : Q) : ¬ (x == y)%Q → Qeq_bool x y = false.
Proof.
  intros Hne. destruct (Qeq_bool x y) eqn:E; [|done].
  apply Qeq_bool_iff in E. contradiction.
Qed.

Lemma Qgtb_true (x y : Q) : Qgtb x y = true ↔ (y < x)%Q.
Proof.
  unfold Qgtb. rewrite negb_true_iff.
  destruct (Qle_bool x y) eqn:E.
  - apply Qle_bool_iff in E. split; [done | intros; lra].
  - split; [intros _ | done].
    apply Qnot_le_lt. intros Hle. apply Qle_bool_iff in Hle. congruence.
Qed.

Lemma Qgtb_false (x y : Q) : Qgtb x y = false ↔ (x <= y)%Q.
Proof.
  unfold Qgtb. rewrite negb_false_iff. apply Qle_bool_iff.
Qed.

(** The remainder lies between [0] and a positive divisor and differs
    from the dividend by a whole number of divisors. *)
Lemma py_mod_positive (x y : Q) :
  (0 < y)%Q →
  ∃ r, py_mod x y = Ok r ∧ (0 <= r)%Q ∧ (r < y)%Q
       ∧ (x == inject_Z (Qfloor (x / y)) * y + r)%Q.
Proof.
  intros Hy. unfold py_mod.
  rewrite Qeq_bool_false by (intros E; lra).
  eexists; split; [reflexivity|].
  assert (Hxy : (x / y * y == x)%Q) by (field; lra).
  set (q := (x / y)%Q) in *.
  pose proof (Qfloor_le q) as Hlo.
  pose proof (Qlt_floor q) as Hhi.
  rewrite inject_Z_plus in Hhi. change (inject_Z 1) with 1%Q in Hhi.
  set (f := inject_Z (Qfloor q)) in *.
  assert (H1 : (f * y <= q * y)%Q) by (apply Qmult_le_compat_r; lra).
  assert (H2 : (q * y < (f + 1) * y)%Q) by (apply Qmult_lt_compat_r; lra).
  split; [lra | split; [lra | ring]].
Qed.

(** ** The walk over the playlist *)

Lemma positive_duration_of (item : entry) :
  positive_duration item → (0 < duration_of item)%Q.
Proof. intros (q & Hq & Hpos). unfold duration_of. rewrite Hq. exact Hpos. Qed.

Lemma accumulate_ge (items : list entry) (cumulative : Q) :
  Forall positive_duration items → (cumulative <= accumulate cumulative items)%Q.
Proof.
  intros Hall. revert cumulative.
  induction Hall as [|item items Hitem _ IH]; intros cumulative.
  - simpl. lra.
  - specialize (IH (cumulative + duration_of item)%Q).
    change (accumulate cumulative (item :: items))
      with (accumulate (cumulative + duration_of item) items).
    apply positive_duration_of in Hitem. lra.
Qed.

Lemma accumulate_gt (items : list entry) (cumulative : Q) :
  items ≠ [] → Forall positive_duration items →
  (cumulative < accumulate cumulative items)%Q.
Proof.
  intros Hne Hall. destruct Hall as [|item items Hitem Hall]; [done|].
  pose proof (accumulate_ge items (cumulative + duration_of item)%Q Hall) as Hge.
  change (accumulate cumulative (item :: items))
    with (accumulate (cumulative + duration_of item) items).
  apply positive_duration_of in Hitem. lra.
Qed.

(** The loop returns at the first entry that reaches beyond the position. *)
Lemma walk_first (items : list entry) :
  ∀ (k : nat) (item : entry) (position cumulative : Q) (idx : nat),
    items !! k = Some item →
    (∀ j item', (j < k)%nat → items !! j = Some item' →
       (accumulate cumulative (take j items) + duration_of item' <= position)%Q) →
    (position < accumulate cumulative (take k items) + duration_of item)%Q →
    walk position cumulative idx items
    = Some ((idx + k)%nat, (position - accumulate cumulative (take k items))%Q).
Proof.
  induction items as [|first rest IH]; intros k item position cumulative idx Hk Hbefore Hhere.
  - done.
  - destruct k as [|k]; simpl in *.
    + injection Hk as ->.
      apply Qgtb_true in Hhere. rewrite Hhere. by rewrite Nat.add_0_r.
    + pose proof (Hbefore 0%nat first (Nat.lt_0_succ k) eq_refl) as Hfirst.
      simpl in Hfirst. apply Qgtb_false in Hfirst. rewrite Hfirst.
      rewrite (IH k item position (cumulative + duration_of first)%Q (S idx) Hk).
      * by rewrite Nat.add_succ_r.
      * intros j item' Hj Hlook. apply (Hbefore (S j) item'); [lia | done].
      * exact Hhere.
Qed.

(** With positive durations and a position inside the remaining span,
    the loop returns, at an entry that contains the position. *)
Lemma walk_in_range (items : list entry) :
  ∀ (position cumulative : Q) (idx : nat),
    Forall positive_duration items →
    (cumulative <= position)%Q →
    (position < accumulate cumulative items)%Q →
    ∃ (k : nat) (item : entry) (item_elapsed : Q),
      walk position cumulative idx items = Some ((idx + k)%nat, item_elapsed)
      ∧ items !! k = Some item
      ∧ (0 <= item_elapsed)%Q ∧ (item_elapsed < duration_of item)%Q.
Proof.
  induction items as [|first rest IH]; intros position cumulative idx Hall Hlo Hhi.
  - simpl in Hhi. lra.
  - apply Forall_cons in Hall as [Hfirst Hall]. simpl.
    destruct (Qgtb (cumulative + duration_of first) position) eqn:E.
    + apply Qgtb_true in E.
      exists 0%nat, first, (position - cumulative)%Q.
      rewrite Nat.add_0_r. repeat split; [lra | lra].
    + apply Qgtb_false in E.
      destruct (IH position (cumulative + duration_of first)%Q (S idx) Hall E Hhi)
        as (k & item & e & Hwalk & Hlook & Hge & Hlt).
      exists (S k), item, e. rewrite Nat.add_succ_r. done.
Qed.

(** The computation does not tell equal rationals apart. *)
Lemma walk_proper (items : list entry) :
  ∀ (position position' cumulative cumulative' : Q) (idx : nat),
    (position == position')%Q → (cumulative == cumulative')%Q →
    match walk position cumulative idx items, walk position' cumulative' idx items with
    | Some (i, e), Some (i', e') => i = i' ∧ (e == e')%Q
    | None, None => True
    | _, _ => False
    end.
Proof.
  induction items as [|first rest IH]; intros position position' cumulative cumulative' idx Hp Hc.
  - done.
  - simpl.
    assert (Qgtb (cumulative + duration_of first) position
            = Qgtb (cumulative' + duration_of first) position') as ->.
    { unfold Qgtb. by rewrite Hp, Hc. }
    destruct (Qgtb (cumulative' + duration_of first) position').
    + split; [done | by rewrite Hp, Hc].
    + apply IH; [done | by rewrite Hc].
Qed.

Lemma get_current_item_index_proper (playlist : list entry) (elapsed elapsed' : Q)
    (idx : nat) (item_elapsed : Q) :
  (elapsed == elapsed')%Q →
  located_at (get_current_item_index playlist elapsed) idx item_elapsed →
  located_at (get_current_item_index playlist elapsed') idx item_elapsed.
Proof.
  intros Heq. unfold get_current_item_index.
  destruct (Qeq_bool (calculate_total_duration playlist) 0); [done|].
  unfold py_mod. destruct (Qeq_bool (calculate_total_duration playlist) 0); [done|].
  simpl.
  set (total := calculate_total_duration playlist).
  assert (Hpos : (elapsed - total * inject_Z (Qfloor (elapsed / total))
                  == elapsed' - total * inject_Z (Qfloor (elapsed' / total)))%Q)
    by (rewrite (Qfloor_comp _ _ (Qdiv_comp _ _ Heq _ _ (Qeq_refl total))); lra).
  pose proof (walk_proper playlist _ _ 0%Q 0%Q 0%nat Hpos (Qeq_refl 0)) as Hwalk.
  destruct (walk _ 0 0 playlist) as [[i e]|], (walk _ 0 0 playlist) as [[i' e']|];
    simpl in *; try done.
  destruct Hwalk as [-> He]. intros [-> Hie]. split; [done | by rewrite <- He].
Qed.

(** ** The default ordering *)

Lemma foldl_append_if {A B : Type} (b : bool) (f : A → B) (l : list A) (acc : list B) :
  foldl (λ acc x, if b then acc ++ [f x] else acc) acc l
  = acc ++ (if b then f <$> l else []).
Proof.
  revert acc. induction l as [|x l IH]; intros acc; simpl.
  - destruct b; by rewrite app_nil_r.
  - rewrite IH. destruct b; [by rewrite <- app_assoc | done].
Qed.

Lemma enumerate_eq (mode : json) (d : disk) (video_duration : option Q) :
  enumerate mode d video_duration
  = (if mode_in mode ["both"; "video"]
     then (λ v, video_item v video_duration) <$> get_video_files d else [])
    ++ (if mode_in mode ["both"; "presentation"]
        then image_item <$> get_slide_files d else []).
Proof. unfold enumerate. by rewrite !foldl_append_if. Qed.

Lemma build_playlist_with_durations_eq (d : disk) :
  build_playlist_with_durations d
  = enumerate (read_mode (CONFIG_FILE d)) d (Some 30%Q).
Proof. reflexivity. Qed.

Lemma build_playlist_positive (d : disk) :
  Forall positive_duration (build_playlist_with_durations d).
Proof.
  rewrite build_playlist_with_durations_eq, enumerate_eq.
  apply Forall_app. split.
  - destruct (mode_in _ ["both"; "video"]); [|constructor].
    apply Forall_fmap, Forall_forall. intros v _. by exists 30%Q.
  - destruct (mode_in _ ["both"; "presentation"]); [|constructor].
    apply Forall_fmap, Forall_forall. intros slide _. by exists SLIDE_DURATION.
Qed.

Lemma empty_store_playlist (d : disk) :
  empty_store d → build_playlist_with_durations d = [].
Proof.
  intros [Hv Hs]. rewrite build_playlist_with_durations_eq, enumerate_eq.
  unfold get_video_files, get_slide_files.
  destruct Hv as [-> | ->], Hs as [-> | ->]; simpl;
    by destruct (mode_in _ ["both"; "video"]), (mode_in _ ["both"; "presentation"]).
Qed.

(** ** The anchor *)

(** The anchor after a synchronized request: later steps of the request
    only read the clock. *)
Lemma api_playlist_sync_anchor (time : nat → Q) (d : disk) (p : process) :
  sync (api_playlist_sync time d p).2
  = if bool_decide (_playlist_hash_cache (sync p)
                    = Some (get_playlist_hash_from (build_playlist_with_durations d)))
    then sync p
    else {| _playlist_cache := Some (build_playlist_with_durations d);
            _playlist_hash_cache := Some (get_playlist_hash_from (build_playlist_with_durations d));
            _playlist_start_time := Some (time (clock_reads p)) |}.
Proof.
  unfold api_playlist_sync.
  destruct (bool_decide _); repeat (case_match; simplify_eq; simpl in *); done.
Qed.

Lemma serve_stable (time : nat → Q) (h : string) (disks : list disk) :
  ∀ p : process,
    _playlist_hash_cache (sync p) = Some h →
    Forall (λ d, get_playlist_hash_from (build_playlist_with_durations d) = h) disks →
    sync (serve time disks p) = sync p.
Proof.
  induction disks as [|d disks IH]; intros p Hp Hall; [done|].
  apply Forall_cons in Hall as [Hd Hall].
  assert (Hstep : sync (api_playlist_sync time d p).2 = sync p).
  { rewrite api_playlist_sync_anchor, Hd, bool_decide_eq_true_2; done. }
  unfold serve in *. simpl. rewrite IH; [done | by rewrite Hstep | done].
Qed.

(** ** Patterns *)

Lemma chars_app (a b : string) : chars (a +:+ b) = chars a ++ chars b.
Proof. induction a as [|c a IH]; simpl; [done | by rewrite <- IH]. Qed.

Lemma text_chars (s : string) : text (chars s) = s.
Proof. apply String.string_of_list_ascii_of_string. Qed.

Lemma chars_text (l : list ascii) : chars (text l) = l.
Proof. apply String.list_ascii_of_string_of_list_ascii. Qed.

Lemma fnmatch_chars_star_unfold (pat nm : list ascii) :
  fnmatch_chars ("*"%char :: pat) nm
  = fnmatch_chars pat nm
    || match nm with [] => false | _ :: nm' => fnmatch_chars ("*"%char :: pat) nm' end.
Proof. by destruct nm. Qed.

Lemma fnmatch_chars_cons_unfold (c : ascii) (pat nm : list ascii) :
  c ≠ "*"%char →
  fnmatch_chars (c :: pat) nm
  = match nm with [] => false | x :: nm' => Ascii.eqb c x && fnmatch_chars pat nm' end.
Proof.
  intros Hc. cbn [fnmatch_chars]. apply Ascii.eqb_neq in Hc. by rewrite Hc.
Qed.

Lemma fnmatch_chars_star (pat nm : list ascii) :
  fnmatch_chars ("*"%char :: pat) nm = true
  ↔ ∃ pre suf, nm = pre ++ suf ∧ fnmatch_chars pat suf = true.
Proof.
  induction nm as [|x nm IH]; rewrite fnmatch_chars_star_unfold.
  - rewrite orb_false_r. split.
    + intros H. by exists [], [].
    + intros (pre & suf & Heq & H). symmetry in Heq.
      apply app_eq_nil in Heq as [-> ->]. done.
  - rewrite orb_true_iff, IH. split.
    + intros [H | (pre & suf & -> & H)].
      * by exists [], (x :: nm).
      * by exists (x :: pre), suf.
    + intros (pre & suf & Heq & H). destruct pre as [|y pre]; simpl in Heq.
      * left. by rewrite Heq.
      * injection Heq as -> ->. right. by exists pre, suf.
Qed.

Lemma fnmatch_chars_literal (lit nm : list ascii) :
  "*"%char ∉ lit → fnmatch_chars lit nm = true ↔ nm = lit.
Proof.
  revert nm. induction lit as [|c lit IH]; intros nm Hstar.
  - destruct nm; simpl; split; done.
  - apply not_elem_of_cons in Hstar as [Hc Hstar].
    rewrite fnmatch_chars_cons_unfold by done.
    destruct nm as [|x nm]; [split; done|].
    rewrite andb_true_iff, Ascii.eqb_eq, (IH nm Hstar). split.
    + by intros [-> ->].
    + by intros [= -> ->].
Qed.

Lemma fnmatch_chars_prefix (lit pat nm : list ascii) :
  "*"%char ∉ lit →
  fnmatch_chars (lit ++ pat) nm = true
  ↔ ∃ rest, nm = lit ++ rest ∧ fnmatch_chars pat rest = true.
Proof.
  revert nm. induction lit as [|c lit IH]; intros nm Hstar.
  - simpl. split; [intros H; by exists nm | by intros (rest & -> & H)].
  - apply not_elem_of_cons in Hstar as [Hc Hstar].
    change ((c :: lit) ++ pat) with (c :: (lit ++ pat)).
    rewrite fnmatch_chars_cons_unfold by done.
    destruct nm as [|x nm]; [split; [done | by intros (rest & Heq & _)]|].
    rewrite andb_true_iff, Ascii.eqb_eq, (IH nm Hstar). split.
    + intros [-> (rest & -> & H)]. by exists rest.
    + intros (rest & [= -> ->] & H). split; [done | by exists rest].
Qed.

(** [*ext] matches the names that end in [ext]. *)
Lemma fnmatch_suffix (ext nm : string) :
  "*"%char ∉ chars ext →
  fnmatch ("*" +:+ ext) nm = true ↔ ∃ base, nm = base +:+ ext.
Proof.
  intros Hstar. unfold fnmatch.
  change (chars ("*" +:+ ext)) with ("*"%char :: chars ext).
  rewrite fnmatch_chars_star. split.
  - intros (pre & suf & Hnm & Hsuf).
    apply fnmatch_chars_literal in Hsuf as ->; [|done].
    exists (text pre). rewrite <- (text_chars nm), <- (text_chars (text pre +:+ ext)).
    by rewrite chars_app, chars_text, Hnm.
  - intros (base & ->). exists (chars base), (chars ext).
    split; [apply chars_app | by apply fnmatch_chars_literal].
Qed.

(** [slide_*.png] matches the names that begin with [slide_] and go on
    with a part that ends in [.png]. *)
Lemma fnmatch_slide (nm : string) :
  fnmatch "slide_*.png" nm = true ↔ ∃ mid, nm = "slide_" +:+ mid +:+ ".png".
Proof.
  unfold fnmatch.
  change (chars "slide_*.png") with (chars "slide_" ++ "*"%char :: chars ".png").
  rewrite fnmatch_chars_prefix by (apply (bool_decide_unpack _); vm_compute; exact I).
  split.
  - intros (rest & Hnm & Hrest).
    apply fnmatch_chars_star in Hrest as (pre & suf & -> & Hsuf).
    apply fnmatch_chars_literal in Hsuf as ->;
      [|apply (bool_decide_unpack _); vm_compute; exact I].
    exists (text pre).
    rewrite <- (text_chars nm), <- (text_chars ("slide_" +:+ text pre +:+ ".png")).
    by rewrite !chars_app, chars_text, Hnm.
  - intros (mid & ->). exists (chars (mid +:+ ".png")).
    split; [apply chars_app|].
    apply fnmatch_chars_star. exists (chars mid), (chars ".png").
    split; [apply chars_app|].
    apply fnmatch_chars_literal; [|done].
    apply (bool_decide_unpack _). vm_compute. exact I.
Qed.

(** ** Enumerated videos *)

Lemma elem_of_foldl_extend {A B : Type} (g1 g2 : B → list A) (x : A) (l : list B) :
  ∀ acc : list A,
    x ∈ foldl (λ files ext, (files ++ g1 ext) ++ g2 ext) acc l
    ↔ x ∈ acc ∨ ∃ ext, ext ∈ l ∧ (x ∈ g1 ext ∨ x ∈ g2 ext).
Proof.
  induction l as [|e l IH]; intros acc; simpl.
  - split; [by left | intros [H | (ext & Hin & _)]; [done | by apply elem_of_nil in Hin]].
  - rewrite IH, !elem_of_app. split.
    + intros [[[H | H] | H] | (ext & Hin & H)].
      * by left.
      * right. exists e. split; [left | by left].
      * right. exists e. split; [left | by right].
      * right. exists ext. split; [by right | done].
    + intros [H | (ext & Hin & H)]; [by repeat left|].
      apply elem_of_cons in Hin as [-> | Hin].
      * destruct H as [H | H]; left; [left; by right | by right].
      * right. by exists ext.
Qed.

(** A file is enumerated exactly when its name ends a match of one of the
    two patterns of a recognised extension. *)
Lemma elem_of_get_video_files (d : disk) (nm : string) :
  nm ∈ get_video_files d
  ↔ ∃ names ext,
      VIDEOS_DIR d = Some names ∧ nm ∈ names ∧ ext ∈ VIDEO_FORMATS
      ∧ (fnmatch ("*" +:+ ext) nm = true ∨ fnmatch ("*" +:+ upper ext) nm = true).
Proof.
  unfold get_video_files, sorted. rewrite merge_sort_Permutation.
  destruct (VIDEOS_DIR d) as [names|].
  - rewrite elem_of_foldl_extend. unfold glob. split.
    + intros [H | (ext & Hin & H)]; [by apply elem_of_nil in H|].
      exists names, ext. rewrite !list_elem_of_filter in H.
      destruct H as [[Hm Hnm] | [Hm Hnm]]; (do 3 (split; [done|])); [by left | by right].
    + intros (names' & ext & [= <-] & Hnm & Hin & H).
      right. exists ext. rewrite !list_elem_of_filter.
      split; [done|]. destruct H as [Hm | Hm]; [by left | by right].
  - split; [intros H; by apply elem_of_nil in H | intros (? & ? & ? & _); done].
Qed.

(** X18: the listed files are those of the video directory whose name
    ends in a recognised extension, spelled all in lower case or all in
    upper case; a missing directory lists nothing. *)
Lemma get_video_files_spec (d : disk) (nm : string) :
  nm ∈ get_video_files d
  ↔ ∃ names ext base,
      VIDEOS_DIR d = Some names ∧ nm ∈ names ∧ ext ∈ VIDEO_FORMATS
      ∧ (nm = base +:+ ext ∨ nm = base +:+ upper ext).
Proof.
  assert (Hplain : ∀ ext, ext ∈ VIDEO_FORMATS →
                          ("*"%char ∉ chars ext) ∧ ("*"%char ∉ chars (upper ext))).
  { intros ext Hext. unfold VIDEO_FORMATS in Hext.
    repeat (apply elem_of_cons in Hext as [-> | Hext];
            [split; apply (bool_decide_unpack _); vm_compute; exact I|]).
    by apply elem_of_nil in Hext. }
  rewrite elem_of_get_video_files. split.
  - intros (names & ext & Hdir & Hnm & Hext & Hmatch).
    destruct (Hplain ext Hext) as [Hlow Hup].
    destruct Hmatch as [Hm | Hm].
    + apply fnmatch_suffix in Hm as (base & ->); [|done].
      exists names, ext, base. do 3 (split; [done|]). by left.
    + apply fnmatch_suffix in Hm as (base & ->); [|done].
      exists names, ext, base. do 3 (split; [done|]). by right.
  - intros (names & ext & base & Hdir & Hnm & Hext & Hspelled).
    destruct (Hplain ext Hext) as [Hlow Hup].
    exists names, ext. do 3 (split; [done|]).
    destruct Hspelled as [-> | ->]; [left | right];
      apply fnmatch_suffix; try done; by exists base.
Qed.

Lemma get_video_files_sorted (d : disk) : Sorted String.le (get_video_files d).
Proof. apply (Sorted_merge_sort String.le). Qed.

Lemma get_video_files_missing (d : disk) : VIDEOS_DIR d = None → get_video_files d = [].
Proof. unfold get_video_files. by intros ->. Qed.

Lemma foldl_insert_lookup (l : list string) (nm : string) :
  ∀ m : gmap string string,
    foldl (λ m v, <[v := v]> m) m l !! nm
    = if decide (nm ∈ l) then Some nm else m !! nm.
Proof.
  induction l as [|v l IH]; intros m; cbn [foldl].
  - destruct (decide (nm ∈ [])) as [Hin | _]; [by apply elem_of_nil in Hin | done].
  - rewrite IH. destruct (decide (nm ∈ l)) as [Hin | Hnin].
    + rewrite decide_True; [done | by right].
    + destruct (decide (v = nm)) as [-> | Hne].
      * rewrite lookup_insert_eq, decide_True; [done | by left].
      * rewrite lookup_insert_ne by done.
        rewrite decide_False; [done|]. rewrite elem_of_cons.
        intros [Heq | Hin]; [by symmetry in Heq | done].
Qed.

(** [name in video_files], and the path it maps to. *)
Lemma video_map_lookup (d : disk) (nm : string) :
  video_map d !! nm = if decide (nm ∈ get_video_files d) then Some nm else None.
Proof. unfold video_map. by rewrite foldl_insert_lookup, lookup_empty. Qed.

(** ** Mode filtering *)

Lemma Forall_repeated {A : Type} (P : A → Prop) (n : Z) (items : list A) :
  Forall P items → Forall P (repeated n items).
Proof.
  intros Hitems. unfold repeated. apply Forall_concat, Forall_replicate, Hitems.
Qed.

Lemma expand_presentation_allowed (mode : json) (d : disk) (nm : string) (repeats : Z)
    (items : list entry) :
  expand_presentation mode d nm repeats = Ok items → Forall (allowed mode) items.
Proof.
  unfold expand_presentation.
  destruct (pres_dir d (path_stem nm)) as [[[dir children]|]|e]; simpl; [| |done].
  - destruct (mode_in mode ["both"; "presentation"]) eqn:Hmode; intros [= <-]; [|constructor].
    apply Forall_repeated. rewrite <- list_fmap_compose.
    apply Forall_fmap, Forall_forall. intros s _. exact Hmode.
  - intros [= <-]. constructor.
Qed.

Lemma resolve_allowed (mode : json) (d : disk) (video_files : gmap string string)
    (sel : selection) (items : list entry) :
  resolve mode d video_files sel = Ok items → Forall (allowed mode) items.
Proof.
  unfold resolve. destruct (negb (truthy (sel_name sel))).
  { intros [= <-]. constructor. }
  destruct (sel_name sel) as [| | | |nm| |]; try done.
  destruct (video_files !! nm) as [v|].
  - destruct (mode_in mode ["both"; "video"]) eqn:Hmode.
    + intros [= <-]. apply Forall_repeated. by repeat constructor.
    + apply expand_presentation_allowed.
  - apply expand_presentation_allowed.
Qed.

Lemma resolve_all_allowed (mode : json) (d : disk) (video_files : gmap string string)
    (selected : list selection) :
  ∀ acc playlist : list entry,
    Forall (allowed mode) acc →
    resolve_all mode d video_files selected acc = Ok playlist →
    Forall (allowed mode) playlist.
Proof.
  induction selected as [|sel rest IH]; intros acc playlist Hacc; simpl.
  - by intros [= <-].
  - destruct (resolve mode d video_files sel) as [items|e] eqn:Hsel; [|done].
    simpl. apply IH, Forall_app. split; [done | by eapply resolve_allowed].
Qed.

Lemma enumerate_allowed (mode : json) (d : disk) (video_duration : option Q) :
  Forall (allowed mode) (enumerate mode d video_duration).
Proof.
  rewrite enumerate_eq. apply Forall_app. split.
  - destruct (mode_in mode ["both"; "video"]) eqn:Hmode; [|constructor].
    apply Forall_fmap, Forall_forall. intros v _. exact Hmode.
  - destruct (mode_in mode ["both"; "presentation"]) eqn:Hmode; [|constructor].
    apply Forall_fmap, Forall_forall. intros slide _. exact Hmode.
Qed.

Lemma build_playlist_allowed (d : disk) :
  Forall (allowed (read_mode (CONFIG_FILE d))) (build_playlist_with_durations d).
Proof. rewrite build_playlist_with_durations_eq. apply enumerate_allowed. Qed.

Lemma get_playlist_allowed (d : disk) (playlist : list entry) :
  get_playlist d = Ok playlist → Forall (allowed (read_mode (CONFIG_FILE d))) playlist.
Proof.
  unfold get_playlist.
  destruct (read_selected (PLAYLIST_JSON d)) as [|sel rest].
  - intros [= <-]. apply enumerate_allowed.
  - apply resolve_all_allowed. constructor.
Qed.

(** [SLIDES_CACHE_DIR / stem] is tested without an exception when the
    stem is not longer than [NAME_MAX]. *)
Lemma pres_dir_returns (d : disk) (stem : string) :
  (String.length stem <= NAME_MAX)%nat → ∃ found, pres_dir d stem = Ok found.
Proof.
  intros Hlen. unfold pres_dir.
  destruct (SLIDES_CACHE_DIR d) as [ents|]; [|by eexists].
  destruct (list_find _ ents) as [[i [nm [|children]]]|]; try by eexists.
  destruct (_ || _); [by eexists|].
  destruct (String.eqb stem ".."); [by eexists|].
  destruct (has_nul stem); [by eexists|].
  destruct (Nat.ltb_spec NAME_MAX (String.length stem)); [lia | by eexists].
Qed.

(** [get_playlist] returns when the selected names are strings whose
    stems are not longer than [NAME_MAX]. *)
Lemma resolve_all_returns (mode : json) (d : disk) (video_files : gmap string string)
    (selected : list selection) :
  Forall (λ sel, ∃ nm, sel_name sel = JStr nm
                       ∧ (String.length (path_stem nm) <= NAME_MAX)%nat) selected →
  ∀ acc, ∃ playlist, resolve_all mode d video_files selected acc = Ok playlist.
Proof.
  induction 1 as [|sel rest (nm & Hnm & Hlen) _ IH]; intros acc; simpl; [by eexists|].
  assert (∃ items, resolve mode d video_files sel = Ok items) as (items & ->).
  { assert (∃ items, expand_presentation mode d nm (sel_repeats sel) = Ok items)
      as (items & Hitems).
    { unfold expand_presentation.
      destruct (pres_dir_returns d _ Hlen) as ([[dir children]|] & ->); simpl;
        [destruct (mode_in mode ["both"; "presentation"])|]; by eexists. }
    unfold resolve. rewrite Hnm.
    destruct (negb _), (video_files !! nm), (mode_in mode ["both"; "video"]);
      rewrite ?Hitems; by eexists. }
  apply IH.
Qed.

Lemma get_playlist_returns (d : disk) :
  Forall (λ sel, ∃ nm, sel_name sel = JStr nm
                       ∧ (String.length (path_stem nm) <= NAME_MAX)%nat)
         (read_selected (PLAYLIST_JSON d)) →
  ∃ playlist, get_playlist d = Ok playlist.
Proof.
  intros Hnames. unfold get_playlist.
  destruct (read_selected (PLAYLIST_JSON d)) as [|sel rest]; [by eexists|].
  by apply resolve_all_returns.
Qed.

(** The mode falls back to ['both'] when the configuration file is
    missing, cannot be read or parsed, does not hold an object, or holds
    an object without the key ['mode']; a value that is present is kept
    as it is. *)
Lemma read_mode_fallback (cfg : json_file) :
  (∀ members, cfg ≠ Loaded (JObj members)) →
  read_mode cfg = JStr "both".
Proof.
  intros Hobj. destruct cfg as [| |[]]; try done. by destruct (Hobj members).
Qed.

Lemma read_mode_absent_key (members : list (string * json)) :
  list_find (λ kv, kv.1 = "mode") (reverse members) = None →
  read_mode (Loaded (JObj members)) = JStr "both".
Proof. intros Hnone. unfold read_mode, dict_get. by rewrite Hnone. Qed.

Lemma read_mode_present (members : list (string * json)) (i : nat) (v : json) :
  list_find (λ kv, kv.1 = "mode") (reverse members) = Some (i, ("mode", v)) →
  read_mode (Loaded (JObj members)) = v.
Proof. intros Hsome. unfold read_mode, dict_get. by rewrite Hsome. Qed.

(** X19: when [playlist.json] yields no selection entry (it is missing,
    unreadable, not a list, or holds no usable entry), the stateless
    snapshot returns, and it lists the same (type, url, name) triples in
    the same order as the synchronized snapshot. *)
Lemma default_ordering_agrees (d : disk) :
  read_selected (PLAYLIST_JSON d) = [] →
  ∃ playlist,
    get_playlist d = Ok playlist
    ∧ content <$> playlist = content <$> build_playlist_with_durations d.
Proof.
  intros Hsel. unfold get_playlist. rewrite Hsel.
  eexists; split; [reflexivity|].
  rewrite build_playlist_with_durations_eq, !enumerate_eq, !fmap_app.
  f_equal.
  destruct (mode_in _ ["both"; "video"]); [|done].
  rewrite <- !list_fmap_compose. by apply list_fmap_ext.
Qed.

(** C1: the stateless and the synchronized snapshot list the same
    (type, url, name) triples in the same order.  The code breaks this as
    soon as [playlist.json] selects something: [get_playlist] honours the
    selection, [build_playlist_with_durations] never reads it.  With videos
    [a.mp4] and [b.mp4] on disk and the selection [["a.mp4"]], the first
    returns one entry and the second two. *)
Theorem sync_snapshot_ignores_selection :
  get_playlist one_of_two_selected = Ok [video_item "a.mp4" None]
  ∧ build_playlist_with_durations one_of_two_selected
    = [video_item "a.mp4" (Some 30%Q); video_item "b.mp4" (Some 30%Q)]
  ∧ content <$> [video_item "a.mp4" None]
    ≠ content <$> build_playlist_with_durations one_of_two_selected.
Proof.
  split; [vm_compute; reflexivity|].
  split; [vm_compute; reflexivity|].
  vm_compute. discriminate.
Qed.

(** C2: a configuration whose mode is none of the three recognised values
    is treated as mode both.  The code falls back to ['both'] only when
    reading the file fails or the key is absent: for [{"mode": "slides"}]
    both membership tests fail and the playlist is empty, although the
    same disk under mode both lists the video. *)
Theorem unrecognised_mode_empties_playlist :
  read_mode (Loaded (JObj [("mode", JStr "slides")])) = JStr "slides"
  ∧ get_playlist (one_video (Loaded (JObj [("mode", JStr "slides")]))) = Ok []
  ∧ build_playlist_with_durations (one_video (Loaded (JObj [("mode", JStr "slides")]))) = []
  ∧ get_playlist (one_video (Loaded (JObj [("mode", JStr "both")])))
    = Ok [video_item "a.mp4" None]
  ∧ get_playlist (one_video Unreadable) = Ok [video_item "a.mp4" None].
Proof. repeat split; vm_compute; reflexivity. Qed.

(** C3: every file whose extension is a recognised one under
    case-insensitive comparison is listed.  The code globs the lower-case
    and the upper-case spelling of each extension only, so a file named
    [clip.Mp4] is not listed. *)
Theorem mixed_case_extension_not_listed :
  fnmatch "*.mp4" "clip.Mp4" = false
  ∧ fnmatch ("*" +:+ upper ".mp4") "clip.Mp4" = false
  ∧ get_video_files mixed_case_video = [].
Proof. repeat split; vm_compute; reflexivity. Qed.

(** ** The current item *)

Lemma total_duration_positive (playlist : list entry) :
  playlist ≠ [] → Forall positive_duration playlist →
  (0 < calculate_total_duration playlist)%Q.
Proof. intros Hne Hall. exact (accumulate_gt playlist 0 Hne Hall). Qed.

(** The guard on the total makes the modulo safe: neither function of
    the synchronized path raises. *)
Lemma get_current_item_index_returns (playlist : list entry) (elapsed : Q) :
  ∃ r, get_current_item_index playlist elapsed = Ok r.
Proof.
  unfold get_current_item_index, py_mod.
  destruct (Qeq_bool (calculate_total_duration playlist) 0); [by eexists|].
  simpl. destruct (walk _ 0 0 playlist); by eexists.
Qed.

Lemma api_playlist_sync_returns (time : nat → Q) (d : disk) (p : process) :
  ∃ r, (api_playlist_sync time d p).1 = Ok r.
Proof.
  unfold api_playlist_sync.
  set (p1 := if bool_decide _ then p else _).
  destruct (started (sync p1)) as [start|] eqn:Hstart;
    destruct (build_playlist_with_durations d) as [|item rest].
  - cbn [sync]. rewrite Hstart. by eexists.
  - destruct (get_current_item_index_returns (item :: rest)
                (time (clock_reads p1) - start)) as ([idx e] & ->).
    cbn [sync]. rewrite Hstart. by eexists.
  - cbn [sync]. rewrite Hstart. by eexists.
  - cbn [sync]. rewrite Hstart. by eexists.
Qed.

Lemma accumulate_sum (items : list entry) :
  ∀ cumulative, (accumulate cumulative items == cumulative + sum_durations items)%Q.
Proof.
  induction items as [|item items IH]; intros cumulative.
  - simpl. ring.
  - change (accumulate cumulative (item :: items))
      with (accumulate (cumulative + duration_of item) items).
    rewrite IH. unfold duration_of. simpl. destruct (duration item); simpl; ring.
Qed.

(** C4: for durations [10; 20] and anchor start [T0] the current item is
    index 0 with 5 elapsed at [T0 + 5], index 1 with 5 elapsed at
    [T0 + 15], and index 0 with 5 elapsed at [T0 + 35]; in general the
    position is the elapsed time modulo the total duration, the current
    entry is the first one whose cumulative duration before it plus its
    own duration exceeds the position, and the item offset is the
    position minus that cumulative duration; the total duration is the
    sum of the durations of the entries. *)
Theorem looping_index_computation :
  (∀ (a b : entry) (T0 : Q),
     duration a = Some 10%Q → duration b = Some 20%Q →
     located_at (get_current_item_index [a; b] (T0 + 5 - T0)) 0 5
     ∧ located_at (get_current_item_index [a; b] (T0 + 15 - T0)) 1 5
     ∧ located_at (get_current_item_index [a; b] (T0 + 35 - T0)) 0 5)
  ∧ (∀ (playlist : list entry) (elapsed : Q),
       (0 < calculate_total_duration playlist)%Q →
       ∃ position,
         py_mod elapsed (calculate_total_duration playlist) = Ok position
         ∧ (0 <= position)%Q ∧ (position < calculate_total_duration playlist)%Q
         ∧ (elapsed == inject_Z (Qfloor (elapsed / calculate_total_duration playlist))
                       * calculate_total_duration playlist + position)%Q)
  ∧ (∀ (playlist : list entry) (elapsed position : Q) (idx : nat) (item : entry),
       ¬ (calculate_total_duration playlist == 0)%Q →
       py_mod elapsed (calculate_total_duration playlist) = Ok position →
       playlist !! idx = Some item →
       (∀ j item', (j < idx)%nat → playlist !! j = Some item' →
          (cumulative_before playlist j + duration_of item' <= position)%Q) →
       (position < cumulative_before playlist idx + duration_of item)%Q →
       get_current_item_index playlist elapsed
       = Ok (idx, (position - cumulative_before playlist idx)%Q))
  ∧ (∀ playlist : list entry,
       (calculate_total_duration playlist == sum_durations playlist)%Q).
Proof.
  split; [|split; [|split]]; [| | |intros playlist;
    rewrite (accumulate_sum playlist 0); ring].
  - intros [ta ua na da] [tb ub nb db] T0 Ha Hb. simpl in Ha, Hb. subst da db.
    repeat split.
    + apply (get_current_item_index_proper _ 5); [ring | by vm_compute].
    + apply (get_current_item_index_proper _ 15); [ring | by vm_compute].
    + apply (get_current_item_index_proper _ 35); [ring | by vm_compute].
  - intros playlist elapsed Htotal. by apply py_mod_positive.
  - intros playlist elapsed position idx item Htotal Hmod Hlook Hbefore Hhere.
    unfold get_current_item_index.
    rewrite (Qeq_bool_false _ _ Htotal), Hmod. simpl.
    by rewrite (walk_first playlist idx item position 0%Q 0%nat Hlook Hbefore Hhere).
Qed.

(** C5: when the total duration of the playlist is zero, in particular
    for the empty playlist of an empty content store, the current item is
    index 0 with offset 0 for every elapsed time, and the synchronized
    request answers that without raising. *)
Theorem empty_playlist_safety (time : nat → Q) (d : disk) (p : process)
    (playlist : list entry) (elapsed : Q) :
  ((calculate_total_duration playlist == 0)%Q →
   get_current_item_index playlist elapsed = Ok (0%nat, 0%Q))
  ∧ ((calculate_total_duration (build_playlist_with_durations d) == 0)%Q →
     ∃ r, (api_playlist_sync time d p).1 = Ok r
          ∧ currentIndex r = 0%nat ∧ itemElapsed r = 0%Q)
  ∧ (empty_store d →
     build_playlist_with_durations d = []
     ∧ ∃ r, (api_playlist_sync time d p).1 = Ok r
            ∧ currentIndex r = 0%nat ∧ itemElapsed r = 0%Q).
Proof.
  assert (Hzero : ∀ pl e, (calculate_total_duration pl == 0)%Q →
                          get_current_item_index pl e = Ok (0%nat, 0%Q)).
  { intros pl e Htotal. unfold get_current_item_index.
    apply Qeq_bool_iff in Htotal. by rewrite Htotal. }
  assert (Hsync : (calculate_total_duration (build_playlist_with_durations d) == 0)%Q →
                  ∃ r, (api_playlist_sync time d p).1 = Ok r
                       ∧ currentIndex r = 0%nat ∧ itemElapsed r = 0%Q).
  { intros Htotal. unfold api_playlist_sync.
    set (p1 := if bool_decide _ then p else _).
    destruct (started (sync p1)) as [start|] eqn:Hstart;
      destruct (build_playlist_with_durations d) as [|item rest] eqn:Hbuild.
    - cbn [sync]. rewrite Hstart. by eexists.
    - rewrite (Hzero _ _ Htotal). cbn [sync]. rewrite Hstart. by eexists.
    - cbn [sync]. rewrite Hstart. by eexists.
    - cbn [sync]. rewrite Hstart. by eexists. }
  split; [apply Hzero | split; [exact Hsync|]].
  intros Hempty. pose proof (empty_store_playlist d Hempty) as Hbuild.
  split; [done|]. apply Hsync. by rewrite Hbuild.
Qed.

(** C10: on a playlist that is not empty and whose durations are all
    positive, and for a non-negative elapsed time, the loop itself
    returns (the fallback after it is not reached); the index it returns
    is within the playlist and the offset lies within the duration of
    the entry at that index. *)
Theorem current_item_within_bounds (playlist : list entry) (elapsed : Q) :
  playlist ≠ [] →
  Forall positive_duration playlist →
  (0 <= elapsed)%Q →
  ∃ (position : Q) (idx : nat) (item : entry) (item_elapsed : Q),
    py_mod elapsed (calculate_total_duration playlist) = Ok position
    ∧ walk position 0 0 playlist = Some (idx, item_elapsed)
    ∧ get_current_item_index playlist elapsed = Ok (idx, item_elapsed)
    ∧ (idx < length playlist)%nat
    ∧ playlist !! idx = Some item
    ∧ (0 <= item_elapsed)%Q ∧ (item_elapsed < duration_of item)%Q.
Proof.
  intros Hne Hall _.
  pose proof (total_duration_positive playlist Hne Hall) as Htotal.
  destruct (py_mod_positive elapsed _ Htotal) as (position & Hmod & Hlo & Hhi & _).
  destruct (walk_in_range playlist position 0%Q 0%nat Hall Hlo Hhi)
    as (k & item & e & Hwalk & Hlook & Hge & Hlt).
  exists position, k, item, e. simpl in Hwalk.
  repeat split; try done.
  - unfold get_current_item_index.
    rewrite Qeq_bool_false by (intros E; lra).
    by rewrite Hmod; simpl; rewrite Hwalk.
  - by eapply lookup_lt_Some.
Qed.

(** C9: a synchronized request whose fresh fingerprint equals the stored
    one leaves the anchor, and with it the start time, as it was; one
    whose fingerprint differs (the first request included) replaces the
    anchor and sets the start time to the clock reading of that request;
    across further requests with the same fingerprint the anchor stays
    constant. *)
Theorem anchor_reset_on_change (time : nat → Q) (d : disk) (p : process) :
  let playlist := build_playlist_with_durations d in
  let fingerprint := get_playlist_hash_from playlist in
  (_playlist_hash_cache (sync p) = Some fingerprint →
   sync (api_playlist_sync time d p).2 = sync p)
  ∧ (_playlist_hash_cache (sync p) ≠ Some fingerprint →
     sync (api_playlist_sync time d p).2
     = {| _playlist_cache := Some playlist;
          _playlist_hash_cache := Some fingerprint;
          _playlist_start_time := Some (time (clock_reads p)) |})
  ∧ (_playlist_hash_cache (sync initial) ≠ Some fingerprint)
  ∧ (∀ disks : list disk,
       Forall (λ d', get_playlist_hash_from (build_playlist_with_durations d') = fingerprint)
              disks →
       sync (serve time disks (api_playlist_sync time d p).2)
       = sync (api_playlist_sync time d p).2).
Proof.
  intros playlist fingerprint.
  pose proof (api_playlist_sync_anchor time d p) as Hstep.
  fold playlist fingerprint in Hstep.
  split; [|split; [|split]].
  - intros Hsame. by rewrite Hstep, bool_decide_eq_true_2.
  - intros Hdiff. by rewrite Hstep, bool_decide_eq_false_2.
  - done.
  - intros disks Hall. apply (serve_stable time fingerprint); [|done].
    rewrite Hstep. by destruct (bool_decide_reflect
      (_playlist_hash_cache (sync p) = Some fingerprint)).
Qed.

(** ** The selection *)

Lemma truthy_name (nm : string) : nm ≠ "" → truthy (JStr nm) = true.
Proof.
  intros Hne. simpl. apply negb_true_iff, String.eqb_neq, Hne.
Qed.

(** A selected name that is an enumerated video, under a mode that
    shows videos. *)
Lemma resolve_video (mode : json) (d : disk) (nm : string) (repeats : Z) :
  nm ≠ "" →
  nm ∈ get_video_files d →
  mode_in mode ["both"; "video"] = true →
  resolve mode d (video_map d) {| sel_name := JStr nm; sel_repeats := repeats |}
  = Ok (repeated repeats [video_item nm None]).
Proof.
  intros Hne Hin Hmode. unfold resolve. cbn [sel_name sel_repeats].
  rewrite (truthy_name nm Hne). cbn [negb].
  by rewrite video_map_lookup, decide_True, Hmode.
Qed.

(** A selected name that is not shown as a video and whose stem leads
    to a directory, under a mode that shows presentations. *)
Lemma resolve_presentation (mode : json) (d : disk) (nm dir : string) (repeats : Z)
    (children : list string) :
  nm ≠ "" →
  nm ∉ get_video_files d ∨ mode_in mode ["both"; "video"] = false →
  mode_in mode ["both"; "presentation"] = true →
  pres_dir d (path_stem nm) = Ok (Some (dir, children)) →
  resolve mode d (video_map d) {| sel_name := JStr nm; sel_repeats := repeats |}
  = Ok (repeated repeats
          (image_item <$> ((λ s, (dir, s)) <$> sorted (glob "slide_*.png" children)))).
Proof.
  intros Hne Hvideo Hmode Hdir. unfold resolve. cbn [sel_name sel_repeats].
  rewrite (truthy_name nm Hne). cbn [negb].
  assert (Hexpand : expand_presentation mode d nm repeats
                    = Ok (repeated repeats
                            (image_item <$> ((λ s, (dir, s))
                                               <$> sorted (glob "slide_*.png" children))))).
  { unfold expand_presentation. rewrite Hdir. simpl. by rewrite Hmode. }
  rewrite video_map_lookup.
  destruct (decide (nm ∈ get_video_files d)) as [Hin | Hnin].
  - destruct Hvideo as [Hnin | Hoff]; [done|]. by rewrite Hoff, Hexpand.
  - by rewrite Hexpand.
Qed.

(** C6: with video [a.mp4] on disk, the selection
    [[{"name": "a.mp4", "repeats": 2}]] and mode both, the playlist is
    exactly two entries, each of type video, with name [a.mp4], url
    [/content/videos/a.mp4] and no duration; nothing of the default
    enumeration is in it. *)
Theorem selection_precedence (d : disk) (names : list string) :
  VIDEOS_DIR d = Some names →
  "a.mp4" ∈ names →
  PLAYLIST_JSON d = Loaded (JArr [JObj [("name", JStr "a.mp4"); ("repeats", JInt 2)]]) →
  read_mode (CONFIG_FILE d) = JStr "both" →
  get_playlist d
  = Ok [ {| type := video; url := "/content/videos/a.mp4"; name := "a.mp4";
            duration := None |};
         {| type := video; url := "/content/videos/a.mp4"; name := "a.mp4";
            duration := None |} ].
Proof.
  intros Hdir Hin Hsel Hmode. unfold get_playlist. rewrite Hsel, Hmode.
  change (read_selected _) with [ {| sel_name := JStr "a.mp4"; sel_repeats := 2 |} ].
  cbn [resolve_all].
  rewrite resolve_video; [done | done | | done].
  apply elem_of_get_video_files. exists names, ".mp4".
  split; [done|]. split; [done|]. split; [by left | by left].
Qed.

(** C7: a selection entry with repeats 2 that names a presentation whose
    slides are [s1; s2] contributes four image entries whose names are,
    in this order, [s1; s2; s1; s2], each with the url of that slide
    under [/content/slides/] and the slide duration: the group is
    repeated as a whole.  The entry names a presentation when the
    resolver does not take it as a video first (it is no enumerated
    video, or the mode hides videos) and the stem of its name is a
    directory in the slide cache; the slides of the presentation are the
    [slide_*.png] entries of that directory in ascending order. *)
Theorem presentation_repeat_wraps_group (d : disk) (nm : string)
    (ents : list (string * dirent)) (i : nat) (children : list string) (s1 s2 : string) :
  let mode := read_mode (CONFIG_FILE d) in
  let sel := {| sel_name := JStr nm; sel_repeats := 2 |} in
  let slide := λ s, {| type := image;
                       url := "/content/slides/"
                              +:+ (if String.eqb (path_stem nm) "" then s
                                   else path_stem nm +:+ "/" +:+ s);
                       name := s;
                       duration := Some 10%Q |} in
  nm ≠ "" →
  mode_in mode ["both"; "presentation"] = true →
  nm ∉ get_video_files d ∨ mode_in mode ["both"; "video"] = false →
  SLIDES_CACHE_DIR d = Some ents →
  list_find (λ ent, ent.1 = path_stem nm) ents = Some (i, (path_stem nm, Dir children)) →
  sorted (glob "slide_*.png" children) = [s1; s2] →
  resolve mode d (video_map d) sel = Ok [slide s1; slide s2; slide s1; slide s2]
  ∧ name <$> [slide s1; slide s2; slide s1; slide s2] = [s1; s2; s1; s2]
  ∧ (∀ (rest : list selection) (acc : list entry),
       resolve_all mode d (video_map d) (sel :: rest) acc
       = resolve_all mode d (video_map d) rest
           (acc ++ [slide s1; slide s2; slide s1; slide s2]))
  ∧ (read_selected (PLAYLIST_JSON d) = [sel] →
     get_playlist d = Ok [slide s1; slide s2; slide s1; slide s2]).
Proof.
  intros mode sel slide Hne Hmode Hvideo Hcache Hfind Hslides.
  assert (Hdir : pres_dir d (path_stem nm) = Ok (Some (path_stem nm, children))).
  { unfold pres_dir. by rewrite Hcache, Hfind. }
  assert (Hsel : resolve mode d (video_map d) sel
                 = Ok [slide s1; slide s2; slide s1; slide s2]).
  { unfold sel. rewrite (resolve_presentation mode d nm (path_stem nm) 2 children) by done.
    by rewrite Hslides. }
  split; [exact Hsel|]. split; [reflexivity|]. split.
  - intros rest acc. cbn [resolve_all]. by rewrite Hsel.
  - intros Hfile. unfold get_playlist. rewrite Hfile.
    fold mode. cbn [resolve_all]. by rewrite Hsel.
Qed.

(** C8: under mode video no image entry is in the playlist, and under
    mode presentation no video entry is, whether the playlist comes from
    a selection or from the default enumeration; and the playlist is
    returned whenever the selected names are strings whose stems are not
    longer than [NAME_MAX]. *)
Theorem mode_filtering (d : disk) :
  (Forall (λ sel, ∃ nm, sel_name sel = JStr nm
                        ∧ (String.length (path_stem nm) <= NAME_MAX)%nat)
          (read_selected (PLAYLIST_JSON d)) →
   ∃ playlist, get_playlist d = Ok playlist)
  ∧ (∀ playlist,
       get_playlist d = Ok playlist →
       (read_mode (CONFIG_FILE d) = JStr "video" →
        Forall (λ e, type e ≠ image) playlist)
       ∧ (read_mode (CONFIG_FILE d) = JStr "presentation" →
          Forall (λ e, type e ≠ video) playlist)).
Proof.
  split; [apply get_playlist_returns|].
  intros playlist Hget. apply get_playlist_allowed in Hget.
  split; intros Hmode; rewrite Hmode in Hget;
    eapply Forall_impl; try exact Hget;
    intros [[] u n du] Hallowed; unfold allowed in Hallowed; simpl in *; done.
Qed.

(** * Further properties of the program *)

(** ** The looping position, continued *)

Lemma Qfloor_unique (q : Q) (n : Z) :
  (inject_Z n <= q)%Q → (q < inject_Z (n + 1))%Q → Qfloor q = n.
Proof.
  intros Hlo Hhi.
  pose proof (Qfloor_resp_le _ _ Hlo) as Hge. rewrite Qfloor_Z in Hge.
  pose proof (Qfloor_le q) as Hfl.
  assert (Hlt : (inject_Z (Qfloor q) < inject_Z (n + 1))%Q) by lra.
  rewrite <- Zlt_Qlt in Hlt. lia.
Qed.

Lemma Qfloor_shift (q : Q) (k : Z) : Qfloor (q + inject_Z k) = (Qfloor q + k)%Z.
Proof.
  pose proof (Qfloor_le q) as Hlo. pose proof (Qlt_floor q) as Hhi.
  apply Qfloor_unique.
  - rewrite inject_Z_plus. lra.
  - rewrite !inject_Z_plus in *. lra.
Qed.

(** Adding whole loops to the elapsed time does not move the position. *)
Lemma py_mod_period (x y : Q) (k : Z) (r : Q) :
  py_mod x y = Ok r →
  ∃ r', py_mod (x + inject_Z k * y) y = Ok r' ∧ (r' == r)%Q.
Proof.
  unfold py_mod. destruct (Qeq_bool y 0) eqn:Hy; [done|].
  assert (Hne : ¬ (y == 0)%Q) by (intros E; apply Qeq_bool_iff in E; congruence).
  assert (Hdiv : ((x + inject_Z k * y) / y == x / y + inject_Z k)%Q) by (by field).
  rewrite (Qfloor_comp _ _ Hdiv), Qfloor_shift, inject_Z_plus.
  generalize (inject_Z (Qfloor (x / y))). intros f Hr.
  eexists; split; [reflexivity|].
  assert (r = x - y * f)%Q as -> by congruence. ring.
Qed.

(** The located item depends on the elapsed time through the position
    only. *)
Lemma located_at_position (playlist : list entry) (elapsed elapsed' position position' : Q)
    (idx : nat) (item_elapsed : Q) :
  py_mod elapsed (calculate_total_duration playlist) = Ok position →
  py_mod elapsed' (calculate_total_duration playlist) = Ok position' →
  (position == position')%Q →
  located_at (get_current_item_index playlist elapsed) idx item_elapsed →
  located_at (get_current_item_index playlist elapsed') idx item_elapsed.
Proof.
  intros Hmod Hmod' Heq. unfold get_current_item_index.
  destruct (Qeq_bool (calculate_total_duration playlist) 0); [done|].
  rewrite Hmod, Hmod'. simpl.
  pose proof (walk_proper playlist _ _ 0%Q 0%Q 0%nat Heq (Qeq_refl 0)) as Hwalk.
  destruct (walk position 0 0 playlist) as [[i e]|],
           (walk position' 0 0 playlist) as [[i' e']|]; simpl in *; try done.
  destruct Hwalk as [-> He]. intros [-> Hie]. split; [done | by rewrite <- He].
Qed.

(** The loop of [walk], with the offset it returns spelled out. *)
Lemma walk_in_range_offset (items : list entry) :
  ∀ (position cumulative : Q) (idx : nat),
    Forall positive_duration items →
    (cumulative <= position)%Q →
    (position < accumulate cumulative items)%Q →
    ∃ (k : nat) (item : entry),
      walk position cumulative idx items
      = Some ((idx + k)%nat, (position - accumulate cumulative (take k items))%Q)
      ∧ items !! k = Some item
      ∧ (accumulate cumulative (take k items) <= position)%Q
      ∧ (position < accumulate cumulative (take k items) + duration_of item)%Q.
Proof.
  induction items as [|first rest IH]; intros position cumulative idx Hall Hlo Hhi.
  - simpl in Hhi. lra.
  - apply Forall_cons in Hall as [Hfirst Hall]. simpl.
    destruct (Qgtb (cumulative + duration_of first) position) eqn:E.
    + apply Qgtb_true in E. exists 0%nat, first. rewrite Nat.add_0_r. by repeat split.
    + apply Qgtb_false in E.
      destruct (IH position (cumulative + duration_of first)%Q (S idx) Hall E Hhi)
        as (k & item & Hwalk & Hlook & Hge & Hlt).
      exists (S k), item. rewrite Nat.add_succ_r. by repeat split.
Qed.

(** The sum of the durations of items that all last [q]. *)
Lemma accumulate_constant {A : Type} (f : A → entry) (q : Q) (l : list A) :
  (∀ x, duration_of (f x) = q) →
  ∀ cumulative,
    (accumulate cumulative (f <$> l) == cumulative + q * inject_Z (Z.of_nat (length l)))%Q.
Proof.
  intros Hq. induction l as [|x l IH]; intros cumulative.
  - simpl. ring.
  - change (accumulate cumulative (f <$> x :: l))
      with (accumulate (cumulative + duration_of (f x)) (f <$> l)).
    rewrite IH, Hq. cbn [length]. rewrite Nat2Z.inj_succ, <- Z.add_1_r, inject_Z_plus.
    change (inject_Z 1) with 1%Q. ring.
Qed.

Lemma accumulate_app (l1 l2 : list entry) (cumulative : Q) :
  accumulate cumulative (l1 ++ l2) = accumulate (accumulate cumulative l1) l2.
Proof. unfold accumulate. by rewrite foldl_app. Qed.

Lemma current_item_in_range (playlist : list entry) (elapsed : Q) :
  playlist ≠ [] →
  Forall positive_duration playlist →
  ∃ (idx : nat) (item : entry) (item_elapsed : Q),
    get_current_item_index playlist elapsed = Ok (idx, item_elapsed)
    ∧ playlist !! idx = Some item
    ∧ (0 <= item_elapsed)%Q ∧ (item_elapsed < duration_of item)%Q.
Proof.
  intros Hne Hall.
  pose proof (total_duration_positive playlist Hne Hall) as Htotal.
  destruct (py_mod_positive elapsed _ Htotal) as (position & Hmod & Hlo & Hhi & _).
  destruct (walk_in_range playlist position 0%Q 0%nat Hall Hlo Hhi)
    as (k & item & e & Hwalk & Hlook & Hge & Hlt).
  exists k, item, e. simpl in Hwalk. split; [|done].
  unfold get_current_item_index.
  rewrite Qeq_bool_false by (intros E; lra).
  by rewrite Hmod; simpl; rewrite Hwalk.
Qed.

(** X1: the current item is the same after any whole number of further
    loops: elapsed times that differ by a multiple of the total duration
    give the same index and the same offset. *)
Theorem current_item_periodic (playlist : list entry) (elapsed : Q) (k : Z)
    (idx : nat) (item_elapsed : Q) :
  located_at (get_current_item_index playlist elapsed) idx item_elapsed
  ↔ located_at (get_current_item_index playlist
                  (elapsed + inject_Z k * calculate_total_duration playlist))
               idx item_elapsed.
Proof.
  destruct (Qeq_bool (calculate_total_duration playlist) 0) eqn:Hzero.
  { unfold get_current_item_index. by rewrite Hzero. }
  assert (∃ r, py_mod elapsed (calculate_total_duration playlist) = Ok r) as [r Hr].
  { unfold py_mod. rewrite Hzero. by eexists. }
  destruct (py_mod_period _ _ k r Hr) as (r' & Hr' & Heq).
  split.
  - apply (located_at_position playlist _ _ r r'); [done | done | by symmetry].
  - by apply (located_at_position playlist _ _ r' r).
Qed.

(** X2: on a non-empty playlist with positive durations the index and
    offset returned determine the elapsed time up to whole loops: the
    elapsed time is a whole number of total durations, plus the durations
    before the returned index, plus the returned offset. *)
Theorem current_item_reconstructs_elapsed (playlist : list entry) (elapsed : Q) :
  playlist ≠ [] →
  Forall positive_duration playlist →
  ∃ (idx : nat) (item_elapsed : Q),
    get_current_item_index playlist elapsed = Ok (idx, item_elapsed)
    ∧ (elapsed
       == inject_Z (Qfloor (elapsed / calculate_total_duration playlist))
          * calculate_total_duration playlist
          + cumulative_before playlist idx + item_elapsed)%Q.
Proof.
  intros Hne Hall.
  pose proof (total_duration_positive playlist Hne Hall) as Htotal.
  destruct (py_mod_positive elapsed _ Htotal) as (position & Hmod & Hlo & Hhi & Hsplit).
  destruct (walk_in_range_offset playlist position 0%Q 0%nat Hall Hlo Hhi)
    as (k & item & Hwalk & Hlook & Hge & Hlt).
  simpl in Hwalk.
  exists k, (position - accumulate 0 (take k playlist))%Q. split.
  - unfold get_current_item_index.
    rewrite Qeq_bool_false by (intros E; lra).
    by rewrite Hmod; simpl; rewrite Hwalk.
  - unfold cumulative_before. rewrite Hsplit at 1. ring.
Qed.

(** X3: the playlist of the synchronized endpoint lasts 30 for every
    listed video and 10 for every listed slide, as far as the mode shows
    them; its total is zero only when it is empty. *)
Theorem sync_total_duration (d : disk) :
  (calculate_total_duration (build_playlist_with_durations d)
   == (if mode_in (read_mode (CONFIG_FILE d)) ["both"; "video"]
       then 30 * inject_Z (Z.of_nat (length (get_video_files d))) else 0)
      + (if mode_in (read_mode (CONFIG_FILE d)) ["both"; "presentation"]
         then 10 * inject_Z (Z.of_nat (length (get_slide_files d))) else 0))%Q
  ∧ ((calculate_total_duration (build_playlist_with_durations d) == 0)%Q
     ↔ build_playlist_with_durations d = []).
Proof.
  split.
  - rewrite build_playlist_with_durations_eq, enumerate_eq.
    change (calculate_total_duration ?l) with (accumulate 0 l).
    rewrite accumulate_app.
    pose proof (accumulate_constant (λ v, video_item v (Some 30%Q)) 30
                  (get_video_files d) (λ _, eq_refl) 0) as Hvideos.
    destruct (mode_in _ ["both"; "video"]), (mode_in _ ["both"; "presentation"]).
    + rewrite (accumulate_constant image_item 10) by done. rewrite Hvideos. ring.
    + simpl. rewrite Hvideos. ring.
    + rewrite (accumulate_constant image_item 10) by done. simpl. ring.
    + simpl. ring.
  - split.
    + intros Hzero.
      destruct (build_playlist_with_durations d) as [|item rest] eqn:Hbuild; [done|].
      assert (Hne : item :: rest ≠ []) by done.
      pose proof (build_playlist_positive d) as Hall. rewrite Hbuild in Hall.
      pose proof (total_duration_positive _ Hne Hall). lra.
    + intros ->. reflexivity.
Qed.

(** X4: on the disks covered (the video directory and the slide cache
    are missing or can be listed, so that the playlist of the request is
    built), a synchronized request is answered for every state of the
    anchor and every reading of the clock, with the playlist just built
    and its fingerprint; when that playlist is not empty the index in
    the answer is an index of the playlist and the offset lies within
    the duration of the entry at that index, and when it is empty both
    are zero. *)
Theorem sync_response_in_range (time : nat → Q) (d : disk) (p : process) :
  ∃ r,
    (api_playlist_sync time d p).1 = Ok r
    ∧ r_playlist r = build_playlist_with_durations d
    ∧ r_hash r = get_playlist_hash_from (build_playlist_with_durations d)
    ∧ (build_playlist_with_durations d = [] →
       currentIndex r = 0%nat ∧ itemElapsed r = 0%Q)
    ∧ (build_playlist_with_durations d ≠ [] →
       ∃ item,
         build_playlist_with_durations d !! currentIndex r = Some item
         ∧ (0 <= itemElapsed r)%Q ∧ (itemElapsed r < duration_of item)%Q).
Proof.
  pose proof (build_playlist_positive d) as Hall.
  unfold api_playlist_sync.
  set (p1 := if bool_decide _ then p else _).
  destruct (started (sync p1)) as [start|] eqn:Hstart;
    destruct (build_playlist_with_durations d) as [|item rest] eqn:Hbuild.
  - cbn [sync]. rewrite Hstart. eexists. by repeat split.
  - assert (Hne : item :: rest ≠ []) by done.
    destruct (current_item_in_range (item :: rest) (time (clock_reads p1) - start) Hne Hall)
      as (idx & it & e & -> & Hlook & Hge & Hlt).
    cbn [sync]. rewrite Hstart. eexists. do 3 (split; [reflexivity|]). split; [done|].
    intros _. by exists it.
  - cbn [sync]. rewrite Hstart. eexists. by repeat split.
  - cbn [sync]. rewrite Hstart. eexists. do 3 (split; [reflexivity|]). split; [done|].
    intros _. exists item. apply Forall_cons in Hall as [Hitem _].
    apply positive_duration_of in Hitem. simpl. repeat split; [lra | done].
Qed.

(** ** The anchor, continued *)

(** A request reads the clock at least once and at most four times. *)
Lemma api_playlist_sync_clock (time : nat → Q) (d : disk) (p : process) :
  (clock_reads p < clock_reads (api_playlist_sync time d p).2
   ∧ clock_reads (api_playlist_sync time d p).2 <= clock_reads p + 4)%nat.
Proof.
  destruct (api_playlist_sync_returns time d p) as [r Hr]. revert Hr.
  unfold api_playlist_sync.
  set (p1 := if bool_decide _ then p else _).
  assert (Hp1 : (clock_reads p <= clock_reads p1 ∧ clock_reads p1 <= clock_reads p + 1)%nat).
  { subst p1. destruct (bool_decide _); simpl; lia. }
  destruct (started (sync p1)) as [start|] eqn:Hstart;
    destruct (build_playlist_with_durations d) as [|item rest];
    try destruct (get_current_item_index _ _) as [[idx e]|err];
    cbn [sync]; rewrite ?Hstart; cbn; try done; intros _; lia.
Qed.

Lemma api_playlist_sync_anchored (time : nat → Q) (d : disk) (p : process) :
  anchored time p → anchored time (api_playlist_sync time d p).2.
Proof.
  intros Hp. pose proof (api_playlist_sync_clock time d p) as [Hlt _].
  unfold anchored. rewrite api_playlist_sync_anchor.
  destruct (bool_decide _).
  - unfold anchored in Hp.
    destruct (_playlist_cache (sync p)), (_playlist_hash_cache (sync p)),
      (_playlist_start_time (sync p)); try done.
    destruct Hp as [Hh (k & Hk & Ht)]. split; [done|]. exists k. split; [lia | done].
  - simpl. split; [done|]. by exists (clock_reads p).
Qed.

(** X5: whatever requests a server process has answered since it
    started, its anchor is consistent: the three variables are set
    together, the stored fingerprint is that of the stored playlist and
    the start time is a clock reading taken during an earlier or the
    current request; after at least one request the stored fingerprint
    is that of the playlist of the latest request. *)
Theorem anchor_consistent (time : nat → Q) (disks : list disk) :
  anchored time (serve time disks initial)
  ∧ (∀ d, last disks = Some d →
       _playlist_hash_cache (sync (serve time disks initial))
       = Some (get_playlist_hash_from (build_playlist_with_durations d))).
Proof.
  induction disks as [|d disks IH] using rev_ind.
  - split; [done | by intros d].
  - destruct IH as [IH _]. unfold serve in *. rewrite foldl_app. simpl. split.
    + by apply api_playlist_sync_anchored.
    + intros d'. rewrite last_snoc. intros [= <-].
      rewrite api_playlist_sync_anchor.
      by destruct (bool_decide_reflect
        (_playlist_hash_cache (sync (foldl (λ p d0, (api_playlist_sync time d0 p).2)
                                       initial disks))
         = Some (get_playlist_hash_from (build_playlist_with_durations d)))).
Qed.

(** ** The selection, continued *)

Lemma read_selected_Forall (P : selection → Prop) (f : json_file) :
  (∀ item, Forall P (normalize item)) → Forall P (read_selected f).
Proof.
  intros Hitem. destruct f as [| |[]]; try constructor.
  unfold read_selected.
  assert (Hgen : ∀ acc, Forall P acc →
                        Forall P (foldl (λ selected item, selected ++ normalize item) acc items)).
  { induction items as [|item items IH]; intros acc Hacc; [done|].
    simpl. apply IH, Forall_app. by split. }
  apply Hgen. constructor.
Qed.

(** X6: whatever [playlist.json] holds, every entry of the normalised
    selection has a repeat count of at least 1, and a name that is either
    true as a condition or the empty string of a plain string entry. *)
Theorem selection_repeats_at_least_one (f : json_file) :
  Forall (λ sel, (1 <= sel_repeats sel)%Z
                 ∧ (truthy (sel_name sel) = true ∨ sel_name sel = JStr ""))
         (read_selected f).
Proof.
  apply read_selected_Forall. intros item.
  destruct item as [| | | |s| |members]; try constructor.
  - split; [done|]. simpl. destruct (String.eqb_spec s ""); [right; by subst | by left].
  - constructor.
  - cbn [normalize]. destruct (truthy (py_or _ _)) eqn:Hname; [|constructor].
    apply Forall_cons. split; [|constructor].
    split; [cbn [sel_repeats]; lia | by left].
Qed.

Lemma resolve_all_app (mode : json) (d : disk) (video_files : gmap string string)
    (s1 s2 : list selection) :
  ∀ acc,
    resolve_all mode d video_files (s1 ++ s2) acc
    = bind (resolve_all mode d video_files s1 acc)
           (λ playlist, resolve_all mode d video_files s2 playlist).
Proof.
  induction s1 as [|sel s1 IH]; intros acc; simpl; [done|].
  destruct (resolve mode d video_files sel); simpl; [apply IH | done].
Qed.

Lemma resolve_all_acc (mode : json) (d : disk) (video_files : gmap string string)
    (selected : list selection) :
  ∀ acc,
    resolve_all mode d video_files selected acc
    = bind (resolve_all mode d video_files selected [])
           (λ playlist, Ok (acc ++ playlist)).
Proof.
  induction selected as [|sel rest IH]; intros acc; simpl.
  - by rewrite app_nil_r.
  - destruct (resolve mode d video_files sel) as [items|e]; simpl; [|done].
    rewrite (IH (acc ++ items)), (IH items).
    destruct (resolve_all mode d video_files rest []); simpl; [|done].
    by rewrite app_assoc.
Qed.

(** X7: the playlist of a selection is the playlist of its first part
    followed by the playlist of the rest, and it fails when one of the
    two fails. *)
Theorem selection_playlists_concatenate (d : disk) (s1 s2 : list selection) :
  read_selected (PLAYLIST_JSON d) = s1 ++ s2 →
  s1 ++ s2 ≠ [] →
  get_playlist d
  = bind (resolve_all (read_mode (CONFIG_FILE d)) d (video_map d) s1 []) (λ first,
      bind (resolve_all (read_mode (CONFIG_FILE d)) d (video_map d) s2 []) (λ rest,
        Ok (first ++ rest))).
Proof.
  intros Hsel Hne. unfold get_playlist. rewrite Hsel.
  destruct (s1 ++ s2) as [|sel l] eqn:Happ; [done|]. rewrite <- Happ.
  rewrite resolve_all_app.
  destruct (resolve_all _ d _ s1 []) as [first|e]; simpl; [|done].
  apply resolve_all_acc.
Qed.






(** A stem that is no entry of the slide cache, none of the stems that
    lead to the cache or its parent, and not longer than [NAME_MAX]
    leads to no directory. *)
Lemma pres_dir_unknown (d : disk) (stem : string) :
  (∀ ents, SLIDES_CACHE_DIR d = Some ents → stem ∉ ents.*1) →
  stem ∉ [""; "."; ".."] →
  (String.length stem <= NAME_MAX)%nat →
  pres_dir d stem = Ok None.
Proof.
  intros Hents Hspecial Hlen. unfold pres_dir.
  destruct (SLIDES_CACHE_DIR d) as [ents|]; [|done].
  specialize (Hents ents eq_refl).
  destruct (list_find (λ ent, ent.1 = stem) ents) as [[i [nm k]]|] eqn:Hfind.
  { apply list_find_Some in Hfind as (Hlook & Hnm & _). simpl in Hnm. subst nm.
    destruct Hents. apply list_elem_of_fmap. exists (stem, k). split; [done|].
    by eapply list_elem_of_lookup_2. }
  destruct (String.eqb_spec stem "") as [-> | _].
  { destruct Hspecial. by left. }
  destruct (String.eqb_spec stem ".") as [-> | _].
  { destruct Hspecial. right. by left. }
  destruct (String.eqb_spec stem "..") as [-> | _].
  { destruct Hspecial. right. right. by left. }
  simpl. destruct (has_nul stem); [done|].
  by destruct (Nat.ltb_spec NAME_MAX (String.length stem)); [lia|].
Qed.

(** X9: a selection that is not empty replaces the default enumeration
    even when none of its names is known: when every selected name is a
    string that is no listed video and whose stem is no entry of the
    slide cache, none of [""], ["."] and [".."], and not longer than
    [NAME_MAX], the playlist is empty. *)
Theorem unknown_names_give_empty_playlist (d : disk) :
  read_selected (PLAYLIST_JSON d) ≠ [] →
  Forall (λ sel, ∃ nm, sel_name sel = JStr nm
                       ∧ (nm ∉ get_video_files d)
                       ∧ (∀ ents, SLIDES_CACHE_DIR d = Some ents → path_stem nm ∉ ents.*1)
                       ∧ (path_stem nm ∉ [""; "."; ".."])
                       ∧ (String.length (path_stem nm) <= NAME_MAX)%nat)
         (read_selected (PLAYLIST_JSON d)) →
  get_playlist d = Ok [].
Proof.
  intros Hne Hall. unfold get_playlist.
  destruct (read_selected (PLAYLIST_JSON d)) as [|sel0 rest0] eqn:Hsel; [done|].
  clear Hne Hsel. revert Hall. generalize (sel0 :: rest0). intros selected Hall.
  induction Hall as [|sel rest (nm & Hnm & Hvideo & Hents & Hspecial & Hlen) _ IH]; [done|].
  simpl.
  assert (resolve (read_mode (CONFIG_FILE d)) d (video_map d) sel = Ok []) as ->; [|done].
  unfold resolve. rewrite Hnm, video_map_lookup, decide_False by done.
  unfold expand_presentation. rewrite (pres_dir_unknown d _ Hents Hspecial Hlen).
  by destruct (negb _).
Qed.

Lemma read_selected_select (nm : string) (repeats : Z) :
  nm ≠ "" →
  read_selected (select nm repeats)
  = [ {| sel_name := JStr nm; sel_repeats := Z.max 1 repeats |} ].
Proof.
  intros Hne. unfold select, read_selected. cbn [foldl app normalize].
  change (dict_get _ "name" JNull) with (JStr nm).
  change (dict_get _ "filename" JNull) with JNull.
  change (dict_get _ "repeats" (JInt 1)) with (JInt repeats).
  unfold py_or. rewrite (truthy_name nm Hne). cbn [py_int]. by rewrite (truthy_name nm Hne).
Qed.

(** X10: selecting a listed video with a repeat count [n] under a mode
    that shows videos gives a playlist of [max 1 n] entries, each that
    video: a count of zero or less is raised to one. *)
Theorem selected_video_repeats (d : disk) (nm : string) (repeats : Z) :
  nm ∈ get_video_files d →
  PLAYLIST_JSON d = select nm repeats →
  mode_in (read_mode (CONFIG_FILE d)) ["both"; "video"] = true →
  get_playlist d = Ok (replicate (Z.to_nat (Z.max 1 repeats)) (video_item nm None)).
Proof.
  intros Hin Hsel Hmode.
  assert (Hne : nm ≠ "").
  { intros ->. apply elem_of_get_video_files in Hin as (names & ext & _ & _ & Hext & Hm).
    unfold VIDEO_FORMATS in Hext.
    repeat (apply elem_of_cons in Hext as [-> | Hext]; [by destruct Hm|]).
    by apply elem_of_nil in Hext. }
  unfold get_playlist. rewrite Hsel, (read_selected_select nm repeats Hne).
  cbn [resolve_all]. rewrite resolve_video by done. simpl.
  f_equal. unfold repeated.
  induction (Z.to_nat (Z.max 1 repeats)) as [|n IH]; [done|].
  simpl. by rewrite IH.
Qed.

(** ** Content enumeration, continued *)







Lemma foldl_slides (l : list (string * dirent)) :
  ∀ acc,
    foldl (λ slides ent,
             match ent.2 with
             | Dir children =>
                 slides ++ ((λ s, (ent.1, s)) <$> sorted (glob "slide_*.png" children))
             | File => slides
             end) acc l
    = acc ++ (l ≫= slides_of).
Proof.
  induction l as [|ent l IH]; intros acc; simpl.
  - by rewrite app_nil_r.
  - rewrite IH. unfold slides_of at 2.
    destruct (ent.2); [by rewrite app_nil_l | by rewrite app_assoc].
Qed.

Lemma get_slide_files_bind (d : disk) :
  get_slide_files d
  = match SLIDES_CACHE_DIR d with
    | Some ents => sorted_entries ents ≫= slides_of
    | None => []
    end.
Proof.
  unfold get_slide_files. destruct (SLIDES_CACHE_DIR d); [|done].
  by rewrite foldl_slides, app_nil_l.
Qed.

Lemma elem_of_slides_of (ent : string * dirent) (slide : string * string) :
  slide ∈ slides_of ent
  ↔ slide.1 = ent.1
    ∧ ∃ children, ent.2 = Dir children ∧ slide.2 ∈ children
                  ∧ fnmatch "slide_*.png" slide.2 = true.
Proof.
  unfold slides_of. destruct ent as [dir [|children]], slide as [sdir s]; simpl.
  - split; [intros H; by apply elem_of_nil in H | by intros (_ & ? & ? & _)].
  - rewrite list_elem_of_fmap. unfold sorted, glob. split.
    + intros (s' & [= -> ->] & Hin).
      rewrite merge_sort_Permutation, list_elem_of_filter in Hin.
      split; [done|]. exists children. by destruct Hin.
    + intros (-> & children' & [= <-] & Hin & Hm). exists s. split; [done|].
      by rewrite merge_sort_Permutation, list_elem_of_filter.
Qed.

(** X12: the slides listed are the entries named [slide_....png] of the
    directories that lie directly in the slide cache; plain files in the
    cache and other names in the directories are left out, and a missing
    cache gives no slide. *)
Theorem slide_listing_spec (d : disk) (dir s : string) :
  (dir, s) ∈ get_slide_files d
  ↔ ∃ ents children mid,
      SLIDES_CACHE_DIR d = Some ents
      ∧ (dir, Dir children) ∈ ents
      ∧ s ∈ children
      ∧ s = "slide_" +:+ mid +:+ ".png".
Proof.
  rewrite get_slide_files_bind. destruct (SLIDES_CACHE_DIR d) as [ents|].
  - rewrite list_elem_of_bind. unfold sorted_entries. split.
    + intros ([dir' k] & Hin & Hent). rewrite merge_sort_Permutation in Hent.
      apply elem_of_slides_of in Hin as (Hdir & children & Hk & Hs & Hm).
      simpl in *. subst. apply fnmatch_slide in Hm as (mid & Hmid).
      by exists ents, children, mid.
    + intros (ents' & children & mid & [= <-] & Hent & Hs & Hmid).
      exists (dir, Dir children). rewrite merge_sort_Permutation. split; [|done].
      apply elem_of_slides_of. split; [done|]. exists children.
      split; [done|]. split; [done|]. apply fnmatch_slide. by exists mid.
  - split; [intros H; by apply elem_of_nil in H | by intros (? & ? & ? & ? & _)].
Qed.


(** ** Stems *)

Lemma split_on_plain (sep : ascii) (l : list ascii) :
  sep ∉ l → split_on sep l = [l].
Proof.
  induction l as [|c l IH]; intros Hsep; [done|].
  apply not_elem_of_cons in Hsep as [Hc Hl]. simpl.
  destruct (Ascii.eqb_spec c sep) as [-> | _]; [done|]. by rewrite IH.
Qed.

Lemma split_on_app (sep : ascii) (a b : list ascii) :
  split_on sep (a ++ sep :: b) = split_on sep a ++ split_on sep b.
Proof.
  induction a as [|c a IH]; simpl.
  - by rewrite Ascii.eqb_refl.
  - destruct (Ascii.eqb c sep); [by rewrite IH|].
    rewrite IH. destruct (split_on sep a) as [|w ws] eqn:Ha; [|done].
    by destruct a as [|x a]; simpl in Ha; [|destruct (Ascii.eqb x sep), (split_on sep a)].
Qed.

Lemma rfind_None (c : ascii) (l : list ascii) : c ∉ l → rfind c l = None.
Proof.
  induction l as [|x l IH]; intros Hc; [done|].
  apply not_elem_of_cons in Hc as [Hx Hl]. simpl. rewrite IH by done.
  by destruct (Ascii.eqb_spec x c) as [-> | _].
Qed.

Lemma rfind_last (c : ascii) (b e : list ascii) :
  c ∉ e → rfind c (b ++ c :: e) = Some (length b).
Proof.
  intros He. induction b as [|x b IH]; simpl.
  - by rewrite rfind_None, Ascii.eqb_refl.
  - by rewrite IH.
Qed.

(** The name of a path is its last component. *)
Lemma path_name_leaf (dirs leaf : string) :
  "/"%char ∉ chars leaf → leaf ≠ "" → leaf ≠ "." →
  path_name leaf = chars leaf ∧ path_name (dirs +:+ "/" +:+ leaf) = chars leaf.
Proof.
  intros Hsep Hne Hdot.
  assert (Hkeep : chars leaf ≠ [] ∧ chars leaf ≠ chars ".").
  { split; intros Heq; [apply Hne | apply Hdot];
      rewrite <- (text_chars leaf), Heq; reflexivity. }
  unfold path_name. split.
  - rewrite split_on_plain by done.
    by rewrite filter_cons_True, filter_nil.
  - rewrite !chars_app. change (chars "/" ++ chars leaf) with ("/"%char :: chars leaf).
    rewrite split_on_app, filter_app, (split_on_plain _ (chars leaf)) by done.
    rewrite (filter_cons_True _ (chars leaf)), filter_nil by done.
    apply List.last_last.
Qed.

(** X14: the stem of a file name [base.ext] is [base], with or without
    directories in front of it, when the extension is not empty and has
    no further dot; the stem of a name without a dot is the name. *)
Theorem path_stem_of_file_name (dirs base ext : string) :
  ("/"%char ∉ chars base) → base ≠ "" →
  ("/"%char ∉ chars ext) → ("."%char ∉ chars ext) → ext ≠ "" →
  path_stem (base +:+ "." +:+ ext) = base
  ∧ path_stem (dirs +:+ "/" +:+ base +:+ "." +:+ ext) = base
  ∧ (("."%char ∉ chars base) →
     path_stem base = base ∧ path_stem (dirs +:+ "/" +:+ base) = base).
Proof.
  intros Hbs Hbne Hes Hed Hene.
  assert (Hb : chars base ≠ []).
  { intros Heq. apply Hbne. rewrite <- (text_chars base), Heq. reflexivity. }
  assert (He : chars ext ≠ []).
  { intros Heq. apply Hene. rewrite <- (text_chars ext), Heq. reflexivity. }
  assert (Hchars : chars (base +:+ "." +:+ ext) = chars base ++ "."%char :: chars ext).
  { by rewrite !chars_app. }
  assert (Hstem : ∀ nm, path_name nm = chars (base +:+ "." +:+ ext) → path_stem nm = base).
  { intros nm Hnm. unfold path_stem. rewrite Hnm, Hchars, rfind_last by done.
    rewrite length_app. cbn [length].
    assert ((0 <? length (chars base))%nat = true) as ->.
    { apply Nat.ltb_lt. destruct (chars base); [done | simpl; lia]. }
    assert ((length (chars base) <? length (chars base) + S (length (chars ext)) - 1)%nat
            = true) as ->.
    { apply Nat.ltb_lt. destruct (chars ext); [done | simpl; lia]. }
    simpl. by rewrite take_app_length, text_chars. }
  assert (Hleaf : "/"%char ∉ chars (base +:+ "." +:+ ext)).
  { rewrite Hchars, elem_of_app, elem_of_cons. by intros [? | [? | ?]]. }
  assert (Hne : base +:+ "." +:+ ext ≠ "").
  { intros Heq. apply (f_equal chars) in Heq. rewrite Hchars in Heq.
    by destruct (chars base). }
  assert (Hnd : base +:+ "." +:+ ext ≠ ".").
  { intros Heq. apply (f_equal chars) in Heq. rewrite Hchars in Heq.
    destruct (chars base) as [|x [|y l]]; [done | | done].
    by destruct (chars ext). }
  destruct (path_name_leaf dirs _ Hleaf Hne Hnd) as [H1 H2].
  split; [by apply Hstem|]. split; [by apply Hstem|].
  intros Hbd.
  assert (Hbdot : base ≠ ".").
  { intros ->. apply Hbd. by left. }
  destruct (path_name_leaf dirs base Hbs Hbne Hbdot) as [H3 H4].
  unfold path_stem. rewrite H3, H4, rfind_None by done.
  by rewrite text_chars.
Qed.

(** X15: a selection entry that gives the file name of a presentation,
    [base.ext], with a repeat count [n] plays the slides cached in the
    directory [base], the whole group [max 1 n] times, provided the name
    is not shown as a video and the mode shows presentations. *)
Theorem selected_presentation_file (d : disk) (base ext : string) (repeats : Z)
    (children : list string) :
  ("/"%char ∉ chars base) → base ≠ "" → base ≠ ".." →
  ("/"%char ∉ chars ext) → ("."%char ∉ chars ext) → ext ≠ "" →
  (∃ ents i, SLIDES_CACHE_DIR d = Some ents
             ∧ list_find (λ ent, ent.1 = base) ents = Some (i, (base, Dir children))) →
  PLAYLIST_JSON d = select (base +:+ "." +:+ ext) repeats →
  (base +:+ "." +:+ ext ∉ get_video_files d
   ∨ mode_in (read_mode (CONFIG_FILE d)) ["both"; "video"] = false) →
  mode_in (read_mode (CONFIG_FILE d)) ["both"; "presentation"] = true →
  get_playlist d
  = Ok (repeated (Z.max 1 repeats)
          (image_item <$> ((λ s, (base, s)) <$> sorted (glob "slide_*.png" children)))).
Proof.
  intros Hbs Hbne Hbup Hes Hed Hene (ents & i & Hcache & Hfind) Hsel Hvideo Hmode.
  destruct (path_stem_of_file_name "" base ext Hbs Hbne Hes Hed Hene) as [Hstem _].
  assert (Hne : base +:+ "." +:+ ext ≠ "").
  { intros Heq. apply (f_equal chars) in Heq. rewrite !chars_app in Heq.
    by destruct (chars base). }
  assert (Hdir : pres_dir d (path_stem (base +:+ "." +:+ ext)) = Ok (Some (base, children))).
  { unfold pres_dir. by rewrite Hstem, Hcache, Hfind. }
  unfold get_playlist. rewrite Hsel, (read_selected_select _ repeats Hne).
  cbn [resolve_all].
  rewrite (resolve_presentation _ d _ base _ children) by done.
  done.
Qed.

(** ** Progress within an item *)

Lemma py_mod_unique (x y r : Q) (n : Z) :
  (0 < y)%Q → (x == inject_Z n * y + r)%Q → (0 <= r)%Q → (r < y)%Q →
  ∃ r', py_mod x y = Ok r' ∧ (r' == r)%Q.
Proof.
  intros Hy Hx Hlo Hhi. unfold py_mod.
  rewrite Qeq_bool_false by (intros E; lra).
  eexists; split; [reflexivity|].
  assert (Hdiv : (x / y == inject_Z n + r / y)%Q) by (rewrite Hx; field; lra).
  assert (Hr0 : (0 <= r / y)%Q).
  { apply Qle_shift_div_l; [done | lra]. }
  assert (Hr1 : (r / y < 1)%Q).
  { apply Qlt_shift_div_r; [done | lra]. }
  assert (Hfloor : Qfloor (x / y) = n).
  { apply Qfloor_unique; rewrite Hdiv; [lra|].
    rewrite inject_Z_plus. change (inject_Z 1) with 1%Q. lra. }
  rewrite Hfloor, Hx. ring.
Qed.

Lemma accumulate_take_mono (items : list entry) :
  Forall positive_duration items →
  ∀ (j k : nat) (cumulative : Q),
    (j <= k)%nat →
    (accumulate cumulative (take j items) <= accumulate cumulative (take k items))%Q.
Proof.
  induction 1 as [|item items Hitem Hall IH]; intros j k cumulative Hjk.
  - rewrite !take_nil. lra.
  - destruct j as [|j], k as [|k]; try lia.
    + lra.
    + change (accumulate cumulative (take 0 (item :: items))) with cumulative.
      change (accumulate cumulative (take (S k) (item :: items)))
        with (accumulate (cumulative + duration_of item) (take k items)).
      assert (Htake : Forall positive_duration (take k items)) by (by apply Forall_take).
      pose proof (accumulate_ge (take k items) (cumulative + duration_of item) Htake).
      apply positive_duration_of in Hitem. lra.
    + apply (IH j k (cumulative + duration_of item)%Q). lia.
Qed.

Lemma accumulate_take_S (items : list entry) (j : nat) (item : entry) (cumulative : Q) :
  items !! j = Some item →
  accumulate cumulative (take (S j) items)
  = (accumulate cumulative (take j items) + duration_of item)%Q.
Proof.
  intros Hlook. rewrite (take_S_r _ _ _ Hlook).
  unfold accumulate. by rewrite foldl_app.
Qed.

(** X16: on a playlist with positive durations, time that passes within
    the current item moves the offset and nothing else: when the item at
    the returned index still has more than [delta] left, [delta] later
    the index is the same and the offset is [delta] more. *)
Theorem offset_advances_within_item (playlist : list entry) (elapsed delta : Q)
    (idx : nat) (item : entry) (item_elapsed : Q) :
  Forall positive_duration playlist →
  playlist !! idx = Some item →
  located_at (get_current_item_index playlist elapsed) idx item_elapsed →
  (0 <= delta)%Q →
  (item_elapsed + delta < duration_of item)%Q →
  located_at (get_current_item_index playlist (elapsed + delta)) idx (item_elapsed + delta).
Proof.
  intros Hall Hitem Hloc Hdelta Hleft.
  assert (Hne : playlist ≠ []) by (intros ->; done).
  pose proof (total_duration_positive playlist Hne Hall) as Htotal.
  destruct (py_mod_positive elapsed _ Htotal) as (position & Hmod & Hlo & Hhi & Hsplit).
  destruct (walk_in_range_offset playlist position 0%Q 0%nat Hall Hlo Hhi)
    as (k & item' & Hwalk & Hlook & Hge & Hlt).
  simpl in Hwalk.
  assert (Hgci : get_current_item_index playlist elapsed
                 = Ok (k, (position - accumulate 0 (take k playlist))%Q)).
  { unfold get_current_item_index.
    rewrite Qeq_bool_false by (intros E; lra).
    by rewrite Hmod; simpl; rewrite Hwalk. }
  rewrite Hgci in Hloc. destruct Hloc as [-> Hoff].
  assert (item' = item) as -> by congruence.
  assert (Hspan : (accumulate 0 (take (S idx) playlist)
                   <= calculate_total_duration playlist)%Q).
  { rewrite <- (firstn_all playlist) at 2.
    apply (accumulate_take_mono playlist Hall). by eapply lookup_lt_Some. }
  rewrite (accumulate_take_S _ _ _ _ Hlook) in Hspan.
  destruct (py_mod_unique (elapsed + delta) _ (position + delta)
              (Qfloor (elapsed / calculate_total_duration playlist)) Htotal)
    as (position' & Hmod' & Hpos'); [rewrite Hsplit at 1; ring | lra | lra |].
  unfold get_current_item_index.
  rewrite Qeq_bool_false by (intros E; lra).
  rewrite Hmod'. simpl.
  rewrite (walk_first playlist idx item position' 0%Q 0%nat Hlook).
  - simpl. split; [done | lra].
  - intros j item'' Hj Hlook''.
    rewrite <- (accumulate_take_S _ _ _ _ Hlook'').
    pose proof (accumulate_take_mono playlist Hall (S j) idx 0%Q Hj). lra.
  - lra.
Qed.

(** ** What the synchronized playlist does not read *)

(** X17: the synchronized playlist depends on the configuration file,
    the video directory and the slide cache only: two disks that agree on
    these give the same playlist, and a request against one after a
    request against the other leaves the anchor, and so the start time,
    as it is.  In particular editing [playlist.json] does not restart
    the synchronized timeline. *)
Theorem sync_playlist_frame (time : nat → Q) (d d' : disk) (p : process) :
  CONFIG_FILE d = CONFIG_FILE d' →
  VIDEOS_DIR d = VIDEOS_DIR d' →
  SLIDES_CACHE_DIR d = SLIDES_CACHE_DIR d' →
  build_playlist_with_durations d = build_playlist_with_durations d'
  ∧ sync (api_playlist_sync time d' (api_playlist_sync time d p).2).2
    = sync (api_playlist_sync time d p).2.
Proof.
  intros Hcfg Hvid Hslides.
  assert (Hbuild : build_playlist_with_durations d = build_playlist_with_durations d').
  { unfold build_playlist_with_durations, get_video_files, get_slide_files.
    by rewrite Hcfg, Hvid, Hslides. }
  split; [done|].
  rewrite (api_playlist_sync_anchor time d'), <- Hbuild, bool_decide_eq_true_2; [done|].
  rewrite api_playlist_sync_anchor.
  by destruct (bool_decide_reflect
    (_playlist_hash_cache (sync p)
     = Some (get_playlist_hash_from (build_playlist_with_durations d)))).
Qed.

End WebPlayer.


(** ** The properties on the example inputs *)

(** C4 at durations [10; 20]: the three instances with the anchor at
    1000, the remainder of 35 by 30, and the general rule at elapsed time
    35, where the position is 5 and the first entry already exceeds it. *)
Lemma looping_index_computation_witness :
  (located_at (get_current_item_index
                 [video_item "a.mp4" (Some 10%Q); video_item "b.mp4" (Some 20%Q)]
                 (1000 + 5 - 1000)) 0 5
   ∧ located_at (get_current_item_index
                   [video_item "a.mp4" (Some 10%Q); video_item "b.mp4" (Some 20%Q)]
                   (1000 + 15 - 1000)) 1 5
   ∧ located_at (get_current_item_index
                   [video_item "a.mp4" (Some 10%Q); video_item "b.mp4" (Some 20%Q)]
                   (1000 + 35 - 1000)) 0 5)
  ∧ (∃ position,
       py_mod 35 (calculate_total_duration
                    [video_item "a.mp4" (Some 10%Q); video_item "b.mp4" (Some 20%Q)])
       = Ok position
       ∧ (0 <= position)%Q
       ∧ (position < calculate_total_duration
                       [video_item "a.mp4" (Some 10%Q); video_item "b.mp4" (Some 20%Q)])%Q
       ∧ (35 == inject_Z (Qfloor (35 / calculate_total_duration
                                         [video_item "a.mp4" (Some 10%Q);
                                          video_item "b.mp4" (Some 20%Q)]))
                * calculate_total_duration
                    [video_item "a.mp4" (Some 10%Q); video_item "b.mp4" (Some 20%Q)]
                + position)%Q)
  ∧ get_current_item_index
      [video_item "a.mp4" (Some 10%Q); video_item "b.mp4" (Some 20%Q)] 35
    = Ok (0%nat, 5%Q)
  ∧ (calculate_total_duration
       [video_item "a.mp4" (Some 10%Q); video_item "b.mp4" (Some 20%Q)] == 10 + 20)%Q.
Proof.
  split; [|split; [|split]];
    [| | |rewrite (proj2 (proj2 (proj2 looping_index_computation))); reflexivity].
  - apply (proj1 looping_index_computation
             (video_item "a.mp4" (Some 10%Q)) (video_item "b.mp4" (Some 20%Q)) 1000%Q);
      reflexivity.
  - apply (proj1 (proj2 looping_index_computation)
             [video_item "a.mp4" (Some 10%Q); video_item "b.mp4" (Some 20%Q)] 35%Q).
    vm_compute. reflexivity.
  - refine (proj1 (proj2 (proj2 looping_index_computation))
              [video_item "a.mp4" (Some 10%Q); video_item "b.mp4" (Some 20%Q)]
              35%Q 5%Q 0%nat (video_item "a.mp4" (Some 10%Q)) _ _ _ _ _).
    + vm_compute. discriminate.
    + reflexivity.
    + reflexivity.
    + intros j item' Hj. lia.
    + vm_compute. reflexivity.
Defined.

(** C5 on the blank disk, at the first request of a process. *)
Lemma empty_playlist_safety_witness :
  get_current_item_index [] 7 = Ok (0%nat, 0%Q)
  ∧ (∃ r, (api_playlist_sync list_urls plain_digest ticking blank initial).1 = Ok r
          ∧ currentIndex r = 0%nat ∧ itemElapsed r = 0%Q)
  ∧ build_playlist_with_durations blank = []
  ∧ ∃ r, (api_playlist_sync list_urls plain_digest ticking blank initial).1 = Ok r
         ∧ currentIndex r = 0%nat ∧ itemElapsed r = 0%Q.
Proof.
  pose proof (empty_playlist_safety list_urls plain_digest ticking blank initial [] 7)
    as (Hzero & Hsync & Hblank).
  split; [|split].
  - apply Hzero. vm_compute. reflexivity.
  - apply Hsync. vm_compute. reflexivity.
  - apply Hblank. split; left; reflexivity.
Defined.

(** C6 on the lobby disk. *)
Lemma selection_precedence_witness :
  get_playlist no_int (lobby (mode_file "both") (select "a.mp4" 2))
  = Ok [ {| type := video; url := "/content/videos/a.mp4"; name := "a.mp4";
            duration := None |};
         {| type := video; url := "/content/videos/a.mp4"; name := "a.mp4";
            duration := None |} ].
Proof.
  apply (selection_precedence no_int (lobby (mode_file "both") (select "a.mp4" 2))
           ["b.mp4"; "a.mp4"; "intro.MOV"; "notes.txt"]).
  - reflexivity.
  - apply (bool_decide_unpack _). vm_compute. exact I.
  - reflexivity.
  - reflexivity.
Defined.

(** C7 on the lobby disk: the presentation [deck], selected twice. *)
Lemma presentation_repeat_wraps_group_witness :
  get_playlist no_int (lobby Missing (select "deck" 2))
  = Ok [ {| type := image; url := "/content/slides/deck/slide_1.png";
            name := "slide_1.png"; duration := Some 10%Q |};
         {| type := image; url := "/content/slides/deck/slide_2.png";
            name := "slide_2.png"; duration := Some 10%Q |};
         {| type := image; url := "/content/slides/deck/slide_1.png";
            name := "slide_1.png"; duration := Some 10%Q |};
         {| type := image; url := "/content/slides/deck/slide_2.png";
            name := "slide_2.png"; duration := Some 10%Q |} ].
Proof.
  refine (proj2 (proj2 (proj2 (presentation_repeat_wraps_group no_int
            (lobby Missing (select "deck" 2)) "deck"
            [("deck", Dir ["slide_2.png"; "slide_1.png"; "thumbs.db"]); ("readme.txt", File)]
            0 ["slide_2.png"; "slide_1.png"; "thumbs.db"] "slide_1.png" "slide_2.png"
            _ _ _ _ _ _))) _).
  - discriminate.
  - reflexivity.
  - left. apply (bool_decide_unpack _). vm_compute. exact I.
  - reflexivity.
  - reflexivity.
  - vm_compute. reflexivity.
  - vm_compute. reflexivity.
Defined.

(** C8 on the lobby disk with a selection that names a video and a
    presentation: under mode video only the video is listed, under mode
    presentation only the slides. *)
Lemma mode_filtering_witness :
  (∃ playlist,
     get_playlist no_int
       (lobby (mode_file "video") (Loaded (JArr [JStr "a.mp4"; JStr "deck"])))
     = Ok playlist)
  ∧ Forall (λ e, type e ≠ image) [video_item "a.mp4" None]
  ∧ Forall (λ e, type e ≠ video)
      [image_item ("deck", "slide_1.png"); image_item ("deck", "slide_2.png")].
Proof.
  split; [|split].
  - apply (proj1 (mode_filtering no_int
                    (lobby (mode_file "video") (Loaded (JArr [JStr "a.mp4"; JStr "deck"]))))).
    apply Forall_cons. split; [|apply Forall_cons; split; [|apply Forall_nil; exact I]].
    + exists "a.mp4". split; [reflexivity|].
      apply (bool_decide_unpack _). vm_compute. exact I.
    + exists "deck". split; [reflexivity|].
      apply (bool_decide_unpack _). vm_compute. exact I.
  - refine (proj1 (proj2 (mode_filtering no_int
                     (lobby (mode_file "video") (Loaded (JArr [JStr "a.mp4"; JStr "deck"]))))
                     [video_item "a.mp4" None] _) _).
    + vm_compute. reflexivity.
    + reflexivity.
  - refine (proj2 (proj2 (mode_filtering no_int
                     (lobby (mode_file "presentation")
                        (Loaded (JArr [JStr "a.mp4"; JStr "deck"]))))
                     [image_item ("deck", "slide_1.png"); image_item ("deck", "slide_2.png")]
                     _) _).
    + vm_compute. reflexivity.
    + reflexivity.
Defined.

(** C9 on the lobby disk.  The first request of a process sets the
    anchor, with the first clock reading as start time; a second request
    finds the same fingerprint and leaves the anchor as it is, and so do
    further requests that find the same playlist. *)
Lemma anchor_reset_on_change_witness :
  sync (api_playlist_sync list_urls plain_digest ticking (lobby Missing Missing) initial).2
  = {| _playlist_cache := Some (build_playlist_with_durations (lobby Missing Missing));
       _playlist_hash_cache :=
         Some (get_playlist_hash_from list_urls plain_digest
                 (build_playlist_with_durations (lobby Missing Missing)));
       _playlist_start_time := Some (ticking 0) |}
  ∧ sync (api_playlist_sync list_urls plain_digest ticking (lobby Missing Missing)
            (api_playlist_sync list_urls plain_digest ticking
               (lobby Missing Missing) initial).2).2
    = sync (api_playlist_sync list_urls plain_digest ticking (lobby Missing Missing) initial).2
  ∧ sync (serve list_urls plain_digest ticking
            [lobby Missing Missing; lobby Missing (select "a.mp4" 2)]
            (api_playlist_sync list_urls plain_digest ticking (lobby Missing Missing) initial).2)
    = sync (api_playlist_sync list_urls plain_digest ticking (lobby Missing Missing) initial).2.
Proof.
  split; [|split].
  - apply (proj1 (proj2 (anchor_reset_on_change list_urls plain_digest ticking
                           (lobby Missing Missing) initial))).
    discriminate.
  - apply (proj1 (anchor_reset_on_change list_urls plain_digest ticking
                    (lobby Missing Missing)
                    (api_playlist_sync list_urls plain_digest ticking
                       (lobby Missing Missing) initial).2)).
    vm_compute. reflexivity.
  - apply (proj2 (proj2 (proj2 (anchor_reset_on_change list_urls plain_digest ticking
                                  (lobby Missing Missing) initial)))).
    repeat constructor.
Defined.

(** C10 on a playlist of a video and a slide, 35 seconds after the
    anchor. *)
Lemma current_item_within_bounds_witness :
  ∃ (position : Q) (idx : nat) (item : entry) (item_elapsed : Q),
    py_mod 35 (calculate_total_duration [video_item "a.mp4" (Some 30%Q); image_item ("deck", "slide_1.png")])
    = Ok position
    ∧ walk position 0 0 [video_item "a.mp4" (Some 30%Q); image_item ("deck", "slide_1.png")]
      = Some (idx, item_elapsed)
    ∧ get_current_item_index [video_item "a.mp4" (Some 30%Q); image_item ("deck", "slide_1.png")] 35
      = Ok (idx, item_elapsed)
    ∧ (idx < 2)%nat
    ∧ [video_item "a.mp4" (Some 30%Q); image_item ("deck", "slide_1.png")] !! idx = Some item
    ∧ (0 <= item_elapsed)%Q ∧ (item_elapsed < duration_of item)%Q.
Proof.
  apply (current_item_within_bounds
           [video_item "a.mp4" (Some 30%Q); image_item ("deck", "slide_1.png")] 35).
  - discriminate.
  - repeat constructor.
    + exists 30%Q. split; reflexivity.
    + exists 10%Q. split; reflexivity.
  - vm_compute. discriminate.
Defined.

(** ** The further properties on the example inputs *)

(** X1: two loops of 30 after second 5 the position is the same. *)
Lemma current_item_periodic_witness :
  located_at
    (get_current_item_index
       [video_item "a.mp4" (Some 10%Q); video_item "b.mp4" (Some 20%Q)]
       (5 + inject_Z 2
            * calculate_total_duration
                [video_item "a.mp4" (Some 10%Q); video_item "b.mp4" (Some 20%Q)]))
    0 5.
Proof.
  apply (proj1 (current_item_periodic
                  [video_item "a.mp4" (Some 10%Q); video_item "b.mp4" (Some 20%Q)]
                  5 2 0 5)).
  vm_compute. split; reflexivity.
Defined.

(** X2 on a video and a slide, 75 seconds after the anchor. *)
Lemma current_item_reconstructs_elapsed_witness :
  ∃ (idx : nat) (item_elapsed : Q),
    get_current_item_index
      [video_item "a.mp4" (Some 30%Q); image_item ("deck", "slide_1.png")] 75
    = Ok (idx, item_elapsed)
    ∧ (75 == inject_Z (Qfloor (75 / calculate_total_duration
                                      [video_item "a.mp4" (Some 30%Q);
                                       image_item ("deck", "slide_1.png")]))
            * calculate_total_duration
                [video_item "a.mp4" (Some 30%Q); image_item ("deck", "slide_1.png")]
            + cumulative_before
                [video_item "a.mp4" (Some 30%Q); image_item ("deck", "slide_1.png")] idx
            + item_elapsed)%Q.
Proof.
  apply (current_item_reconstructs_elapsed
           [video_item "a.mp4" (Some 30%Q); image_item ("deck", "slide_1.png")] 75).
  - discriminate.
  - repeat constructor.
    + exists 30%Q. split; reflexivity.
    + exists 10%Q. split; reflexivity.
Defined.

(** X4 on the lobby disk, at the first request of a process. *)
Lemma sync_response_in_range_witness :
  ∃ r,
    (api_playlist_sync list_urls plain_digest ticking (lobby Missing Missing) initial).1 = Ok r
    ∧ ∃ item,
        build_playlist_with_durations (lobby Missing Missing) !! currentIndex r = Some item
        ∧ (0 <= itemElapsed r)%Q ∧ (itemElapsed r < duration_of item)%Q.
Proof.
  destruct (sync_response_in_range list_urls plain_digest ticking
              (lobby Missing Missing) initial) as (r & Hr & _ & _ & _ & Hrange).
  exists r. split; [exact Hr|]. apply Hrange. vm_compute. discriminate.
Defined.

(** X5 after a request against the lobby disk and one against the
    blank disk. *)
Lemma anchor_consistent_witness :
  _playlist_hash_cache
    (sync (serve list_urls plain_digest ticking [lobby Missing Missing; blank] initial))
  = Some (get_playlist_hash_from list_urls plain_digest (build_playlist_with_durations blank)).
Proof.
  apply (proj2 (anchor_consistent list_urls plain_digest ticking
                  [lobby Missing Missing; blank]) blank).
  reflexivity.
Defined.

(** X7 on the lobby disk, for a selection of a video and a
    presentation. *)
Lemma selection_playlists_concatenate_witness :
  get_playlist no_int (lobby Missing (Loaded (JArr [JStr "a.mp4"; JStr "deck"])))
  = Ok [video_item "a.mp4" None;
        image_item ("deck", "slide_1.png"); image_item ("deck", "slide_2.png")].
Proof.
  refine (selection_playlists_concatenate no_int
            (lobby Missing (Loaded (JArr [JStr "a.mp4"; JStr "deck"])))
            [ {| sel_name := JStr "a.mp4"; sel_repeats := 1 |} ]
            [ {| sel_name := JStr "deck"; sel_repeats := 1 |} ] _ _).
  - reflexivity.
  - discriminate.
Defined.


(** X9 on the lobby disk, for a selection that names one unknown
    file. *)
Lemma unknown_names_give_empty_playlist_witness :
  get_playlist no_int (lobby Missing (Loaded (JArr [JStr "nope.mp4"]))) = Ok [].
Proof.
  apply (unknown_names_give_empty_playlist no_int
           (lobby Missing (Loaded (JArr [JStr "nope.mp4"])))).
  - vm_compute. discriminate.
  - apply Forall_cons. split; [|apply Forall_nil; exact I].
    exists "nope.mp4". split; [reflexivity|]. split; [|split; [|split]].
    + apply (bool_decide_unpack _). vm_compute. exact I.
    + intros ents Hents. injection Hents as <-.
      apply (bool_decide_unpack _). vm_compute. exact I.
    + apply (bool_decide_unpack _). vm_compute. exact I.
    + apply (bool_decide_unpack _). vm_compute. exact I.
Defined.

(** X10 on the lobby disk: a repeat count of 0 plays the video once. *)
Lemma selected_video_repeats_witness :
  get_playlist no_int (lobby (mode_file "video") (select "b.mp4" 0))
  = Ok [video_item "b.mp4" None].
Proof.
  apply (selected_video_repeats no_int (lobby (mode_file "video") (select "b.mp4" 0))
           "b.mp4" 0).
  - apply (bool_decide_unpack _). vm_compute. exact I.
  - reflexivity.
  - reflexivity.
Defined.


(** X12 on the lobby disk: the first slide of [deck] is listed. *)
Lemma slide_listing_spec_witness :
  ("deck", "slide_1.png") ∈ get_slide_files (lobby Missing Missing).
Proof.
  apply (proj2 (slide_listing_spec (lobby Missing Missing) "deck" "slide_1.png")).
  exists [("deck", Dir ["slide_2.png"; "slide_1.png"; "thumbs.db"]); ("readme.txt", File)],
         ["slide_2.png"; "slide_1.png"; "thumbs.db"], "1".
  split; [reflexivity|]. split; [|split; [|reflexivity]].
  - left.
  - apply (bool_decide_unpack _). vm_compute. exact I.
Defined.


(** X14 for the file [deck.pptx] in a directory of uploads. *)
Lemma path_stem_of_file_name_witness :
  path_stem "deck.pptx" = "deck"
  ∧ path_stem "uploads/2024/deck.pptx" = "deck"
  ∧ path_stem "deck" = "deck"
  ∧ path_stem "uploads/2024/deck" = "deck".
Proof.
  assert (H : path_stem ("deck" +:+ "." +:+ "pptx") = "deck"
              ∧ path_stem ("uploads/2024" +:+ "/" +:+ "deck" +:+ "." +:+ "pptx") = "deck"
              ∧ (("."%char ∉ chars "deck") →
                 path_stem "deck" = "deck"
                 ∧ path_stem ("uploads/2024" +:+ "/" +:+ "deck") = "deck")).
  { apply (path_stem_of_file_name "uploads/2024" "deck" "pptx").
    - apply (bool_decide_unpack _). vm_compute. exact I.
    - discriminate.
    - apply (bool_decide_unpack _). vm_compute. exact I.
    - apply (bool_decide_unpack _). vm_compute. exact I.
    - discriminate. }
  destruct H as (H1 & H2 & H3).
  split; [exact H1|]. split; [exact H2|].
  apply H3. apply (bool_decide_unpack _). vm_compute. exact I.
Defined.

(** X15 on the lobby disk: [deck.pptx], selected three times. *)
Lemma selected_presentation_file_witness :
  get_playlist no_int (lobby Missing (select "deck.pptx" 3))
  = Ok [image_item ("deck", "slide_1.png"); image_item ("deck", "slide_2.png");
        image_item ("deck", "slide_1.png"); image_item ("deck", "slide_2.png");
        image_item ("deck", "slide_1.png"); image_item ("deck", "slide_2.png")].
Proof.
  refine (selected_presentation_file no_int (lobby Missing (select "deck.pptx" 3))
            "deck" "pptx" 3 ["slide_2.png"; "slide_1.png"; "thumbs.db"]
            _ _ _ _ _ _ _ _ _ _).
  - apply (bool_decide_unpack _). vm_compute. exact I.
  - discriminate.
  - discriminate.
  - apply (bool_decide_unpack _). vm_compute. exact I.
  - apply (bool_decide_unpack _). vm_compute. exact I.
  - discriminate.
  - exists [("deck", Dir ["slide_2.png"; "slide_1.png"; "thumbs.db"]); ("readme.txt", File)],
           0%nat.
    split; reflexivity.
  - reflexivity.
  - left. apply (bool_decide_unpack _). vm_compute. exact I.
  - reflexivity.
Defined.

(** X16 on a video and a slide: from second 5 of the video, 7 seconds
    later. *)
Lemma offset_advances_within_item_witness :
  located_at
    (get_current_item_index
       [video_item "a.mp4" (Some 30%Q); image_item ("deck", "slide_1.png")] (5 + 7))
    0 (5 + 7).
Proof.
  apply (offset_advances_within_item
           [video_item "a.mp4" (Some 30%Q); image_item ("deck", "slide_1.png")]
           5 7 0 (video_item "a.mp4" (Some 30%Q)) 5).
  - repeat constructor.
    + exists 30%Q. split; reflexivity.
    + exists 10%Q. split; reflexivity.
  - reflexivity.
  - vm_compute. split; reflexivity.
  - vm_compute. discriminate.
  - vm_compute. reflexivity.
Defined.

(** X17 on the lobby disk, without and with a selection. *)
Lemma sync_playlist_frame_witness :
  build_playlist_with_durations (lobby Missing Missing)
  = build_playlist_with_durations (lobby Missing (select "a.mp4" 2))
  ∧ sync (api_playlist_sync list_urls plain_digest ticking (lobby Missing (select "a.mp4" 2))
            (api_playlist_sync list_urls plain_digest ticking
               (lobby Missing Missing) initial).2).2
    = sync (api_playlist_sync list_urls plain_digest ticking (lobby Missing Missing) initial).2.
Proof.
  apply (sync_playlist_frame list_urls plain_digest ticking
           (lobby Missing Missing) (lobby Missing (select "a.mp4" 2)) initial);
    reflexivity.
Defined.

(** X18 on the lobby disk: the file with the upper-case extension is
    listed. *)
Lemma get_video_files_spec_witness :
  "intro.MOV" ∈ get_video_files (lobby Missing Missing).
Proof.
  apply (proj2 (get_video_files_spec (lobby Missing Missing) "intro.MOV")).
  exists ["b.mp4"; "a.mp4"; "intro.MOV"; "notes.txt"], ".mov", "intro".
  split; [reflexivity|]. split; [|split; [|right; reflexivity]].
  - apply (bool_decide_unpack _). vm_compute. exact I.
  - apply (bool_decide_unpack _). vm_compute. exact I.
Defined.

(** X19 on the lobby disk without [playlist.json]. *)
Lemma default_ordering_agrees_witness :
  ∃ playlist,
    get_playlist no_int (lobby Missing Missing) = Ok playlist
    ∧ content <$> playlist
      = content <$> build_playlist_with_durations (lobby Missing Missing).
Proof.
  apply (default_ordering_agrees no_int (lobby Missing Missing)).
  reflexivity.
Defined.
